(** * echemdb-converters: the CSV packager

    A shallow embedding of [echemdbconverters/packager/csvpackager.py] and the
    properties of its schema reconciliation, device lookup, delimiter probe
    and table access.

    Python objects that are mutated in place (the list held by a frictionless
    [Schema], the list handed to the constructor) live in a store of list
    objects addressed by references; dictionaries are never mutated by the
    packager and are plain finite maps. Exceptions, the log of the
    [packager] logger and the number of calls made to the CSV parser are
    threaded through a small state-and-exception monad. *)

From Stdlib Require Import Ascii.
From stdpp Require Import gmap strings list fin_maps.

Open Scope string_scope.
Open Scope list_scope.

(** ** Values, fields and tables *)

(** The values a field descriptor can hold. Only the value under [name] is
    ever inspected (compared with [==] against column labels and other
    names); everything else is passed through. *)
Inductive value : Type :=
| VStr (s : string)
| VInt (z : Z)
| VNull.

#[global] Instance value_eq_dec : EqDecision value.
Proof. solve_decision. Defined.

(** A field descriptor: a Python [dict] with string keys (a frictionless
    [Field] is a [dict] subclass, and [==] on it is [dict] equality). *)
Abbreviation Field := (gmap string value).

(** References to list objects of the Python heap. *)
Abbreviation loc := positive.

(** The part of a pandas [DataFrame] that the packager looks at. *)
Record Table : Type := mkTable {
  columns : list string;
  rows : list (list string)
}.

(** [clevercsv.SimpleDialect]. *)
Record Dialect : Type := mkDialect {
  dialect_delimiter : string;
  dialect_quotechar : string;
  dialect_escapechar : string
}.

(** ** Exceptions, the store and the monad *)

Inductive exn : Type :=
| KeyError (msg : string)
| ValueError
| AttributeError
| NotImplementedError
| FrictionlessException (note : string)
| ParserError.

(** [Stuck] is not a Python behaviour: it marks a run of the model that read
    a reference with no object behind it or exhausted the bound of a loop. *)
Inductive outcome (A : Type) : Type :=
| Ok (a : A)
| Raise (e : exn)
| Stuck.
Arguments Ok {A} a.
Arguments Raise {A} e.
Arguments Stuck {A}.

Record world : Type := mkWorld {
  heap : gmap loc (list Field);
  log : list string;
  parses : nat
}.

Definition M (A : Type) : Type := world → outcome A * world.

#[global] Instance M_ret : MRet M := λ A a w, (Ok a, w).
#[global] Instance M_bind : MBind M := λ A B f m w,
  match m w with
  | (Ok a, w') => f a w'
  | (Raise e, w') => (Raise e, w')
  | (Stuck, w') => (Stuck, w')
  end.

Definition raise {A} (e : exn) : M A := λ w, (Raise e, w).
Definition stuck {A} : M A := λ w, (Stuck, w).

(** Reading and writing list objects. *)
Definition load (l : loc) : M (list Field) := λ w,
  match heap w !! l with
  | Some xs => (Ok xs, w)
  | None => (Stuck, w)
  end.

Definition store (l : loc) (xs : list Field) : M unit := λ w,
  (Ok tt, mkWorld (<[l := xs]> (heap w)) (log w) (parses w)).

(** A new list object. *)
Definition alloc (xs : list Field) : M loc := λ w,
  let l := fresh (dom (heap w)) in
  (Ok l, mkWorld (<[l := xs]> (heap w)) (log w) (parses w)).

(** [logger.warning(msg)] *)
Definition warning (msg : string) : M unit := λ w,
  (Ok tt, mkWorld (heap w) (log w ++ [msg]) (parses w)).

(** [for x in xs: body(x)] over a list that the body cannot reach. *)
Fixpoint for_each {A} (xs : list A) (body : A → M unit) : M unit :=
  match xs with
  | [] => mret tt
  | x :: xs' => body x ≫= λ _, for_each xs' body
  end.

(** [for x in l: body(x)] over a list object that the body may mutate.
    Python's list iterator keeps an index: each round reads the list as it
    is now, stops when the index is past its end, and otherwise hands out
    the element under the index and advances. *)
Fixpoint for_in_from (fuel : nat) (l : loc) (i : nat) (body : Field → M unit)
  : M unit :=
  match fuel with
  | O => stuck
  | S fuel' =>
      xs ← load l;
      match xs !! i with
      | None => mret tt
      | Some x => body x ≫= λ _, for_in_from fuel' l (S i) body
      end
  end.

(** The bound is enough for every body that does not make the list longer. *)
Definition for_in (l : loc) (body : Field → M unit) : M unit :=
  xs ← load l; for_in_from (S (length xs)) l 0 body.

(** ** Python's [list] and frictionless' [Schema] and [Field]

    The packager builds [Schema(fields=[Field(field) for field in ...])] with
    frictionless 4: [Field(descriptor)] copies the mapping (and takes a
    deprecated [fmt:] out of its format), the schema keeps
    its fields in one list object that [schema.fields] hands out, and
    [field_names], [get_field], [remove_field] and [add_field] read and
    change that list. *)

(** [xs.remove(x)] removes the first element equal to [x]. *)
Fixpoint remove_first (x : Field) (xs : list Field) : option (list Field) :=
  match xs with
  | [] => None
  | y :: ys =>
      if decide (y = x) then Some ys
      else cons y <$> remove_first x ys
  end.

Definition list_remove (l : loc) (x : Field) : M unit :=
  xs ← load l;
  match remove_first x xs with
  | Some xs' => store l xs'
  | None => raise ValueError
  end.

(** [format.replace("fmt:", "")]: every occurrence is taken out, from the
    left. *)
Fixpoint remove_fmt (s : string) : string :=
  match s with
  | String "f" (String "m" (String "t" (String ":" rest))) => remove_fmt rest
  | String c s' => String c (remove_fmt s')
  | EmptyString => EmptyString
  end.

(** [Field(descriptor)]: a copy of the mapping, in which a [format] that is
    a string starting with the deprecated [fmt:] is replaced by that string
    without [fmt:]. *)
Definition Field_init (descriptor : Field) : Field :=
  match descriptor !! "format" with
  | Some (VStr format) =>
      if String.prefix "fmt:" format
      then <["format" := VStr (remove_fmt format)]> descriptor
      else descriptor
  | _ => descriptor
  end.

(** [Field.type] is [self.get("type", "any")], and [Field.name] is
    [self.get("name", self.type)]: a descriptor without a name goes by its
    type. *)
Definition Field_type (f : Field) : value := default (VStr "any") (f !! "type").

Definition Field_name (f : Field) : value := default (Field_type f) (f !! "name").

(** A schema is represented by the reference to its list of fields.
    [field_names] is [[field.name for field in self.fields]], computed at
    every access. *)
Definition field_names (schema : loc) : M (list value) :=
  xs ← load schema; mret (Field_name <$> xs).

(** [get_field] returns the first field whose name is [name] and raises
    when there is none; [remove_field] is [self.fields.remove] of that
    field; [add_field] appends. *)
Definition get_field (schema : loc) (name : value) : M Field :=
  xs ← load schema;
  match List.find (λ f, bool_decide (Field_name f = name)) xs with
  | Some f => mret f
  | None => raise (FrictionlessException "field does not exist")
  end.

Definition remove_field (schema : loc) (name : value) : M Field :=
  field ← get_field schema name;
  list_remove schema field ;;
  mret field.

Definition add_field (schema : loc) (f : Field) : M unit :=
  xs ← load schema; store schema (xs ++ [f]).

(** ** The external collaborators

    [pd.read_csv(text, header=n)] and [clevercsv]'s detector. *)
Class Externals : Type := {
  read_csv : string → nat → outcome Table;
  detect : string → option Dialect
}.

(** ** The packager *)

(** Modelled from the spec: the device-specific subclasses live in
    [electrochemistry/eclabpackager.py], which is not among the sources at
    hand. The specification describes a variant as a configuration that
    overrides two constants, the number of header lines and the literal
    decimal separator. *)
Record device_config : Type := mkDevice {
  cfg_header_lines : nat;
  cfg_decimal : string
}.

(** An instance: the attributes set by [__init__], and the overrides of its
    class ([None] for [CSVpackager] itself). [_fields] is the reference the
    caller passed in, or [None]. *)
Record CSVpackager : Type := mkCSVpackager {
  _file : string;
  _metadata : gmap string value;
  _fields : option loc;
  device : option device_config
}.

(** [__init__(self, file, metadata=None, fields=None)], with [file.read()]
    already taken. *)
Definition init (text : string) (metadata : option (gmap string value))
    (fields : option loc) : CSVpackager :=
  mkCSVpackager text (default ∅ metadata) fields None.

(** [self._metadata.copy()] *)
Definition metadata (self : CSVpackager) : gmap string value := _metadata self.

(** [StringIO(self._file)]: a new stream over the stored text. *)
Definition file (self : CSVpackager) : string := _file self.

(** [header_lines] is 0 and [decimal] raises [NotImplementedError] in
    [CSVpackager]; a device variant answers with its constants. *)
Definition header_lines (self : CSVpackager) : nat :=
  match device self with
  | None => 0
  | Some cfg => cfg_header_lines cfg
  end.

Definition decimal (self : CSVpackager) : outcome string :=
  match device self with
  | None => Raise NotImplementedError
  | Some cfg => Ok (cfg_decimal cfg)
  end.

(** *** Device lookup *)

(** The classes [get_packager] can hand out. *)
Inductive packager_class : Type :=
| ECLabPackager.

(** [f"{device}"] for the default argument [None] and for strings. *)
Definition format_device (device : option string) : string :=
  default "None" device.

Definition unknown_device_message (device : option string) : string :=
  "Device wth name '" +:+ format_device device
    +:+ "' is unknown to the packager'.".

Definition get_packager (device : option string) : outcome packager_class :=
  if decide (device = Some "eclab") then Ok ECLabPackager
  else Raise (KeyError (unknown_device_message device)).

(** The identifiers [get_packager] knows, as a table. *)
Definition registry : gmap string packager_class :=
  {[ "eclab" := ECLabPackager ]}.

(** [needle in haystack] for strings. *)
Definition occurs_in (needle haystack : string) : Prop :=
  ∃ before after, haystack = before +:+ needle +:+ after.

(** *** Lines and the data block *)

Definition newline : ascii := "010"%char.

(** [StringIO.readlines()]: the text cut after every line feed, the line
    feeds kept. *)
Fixpoint readlines (s : string) : list string :=
  match s with
  | EmptyString => []
  | String c s' =>
      if Ascii.eqb c newline then String c EmptyString :: readlines s'
      else
        match readlines s' with
        | [] => [String c EmptyString]
        | line :: lines => String c line :: lines
        end
  end.

(** ["".join(lines)] *)
Definition join (lines : list string) : string :=
  foldr String.append EmptyString lines.

(** ["".join(line for line in self.file.readlines()[self.header_lines + 1 :])] *)
Definition data (self : CSVpackager) : string :=
  join (drop (header_lines self + 1) (readlines (file self))).

(** The text after the first line, written down from the specification's
    words: everything after the first line feed, nothing if there is none. *)
Fixpoint after_line (s : string) : string :=
  match s with
  | EmptyString => EmptyString
  | String c s' => if Ascii.eqb c newline then s' else after_line s'
  end.

(** The text after the first [n] lines. *)
Fixpoint after_lines (n : nat) (s : string) : string :=
  match n with
  | O => s
  | S n' => after_lines n' (after_line s)
  end.

(** *** Fields *)

Definition generated_marker : string := "Created by echemdb-converters.".

Definition create_field (name : string) : Field :=
  {[ "name" := VStr name; "comment" := VStr generated_marker ]}.

(** [name in self.column_names] *)
Definition name_in_columns (name : value) (cols : list string) : bool :=
  bool_decide (name ∈ VStr <$> cols).

Definition nameless_warning : string :=
  "Field {field} has no attribute `name`.".

Definition added_warning : string :=
  "A field with name `{name}` was added to the schema.".

Section packager.
Context `{Externals}.

(** [pd.read_csv(self.file, header=self.header_lines)]; the property is
    evaluated anew at every access. *)
Definition df (self : CSVpackager) : M Table := λ w,
  (read_csv (file self) (header_lines self),
   mkWorld (heap w) (log w) (S (parses w))).

(** [self.df.columns.to_list()] *)
Definition column_names (self : CSVpackager) : M (list string) :=
  t ← df self; mret (columns t).

Definition create_fields (self : CSVpackager) : M loc :=
  cols ← column_names self;
  alloc (create_field <$> cols).

(** [clevercsv.detect.Detector().detect(sample).delimiter]; the detector
    returns [None] when it finds no dialect. *)
Definition sniff_delimiter (sample : string) : outcome string :=
  match detect sample with
  | Some dialect => Ok (dialect_delimiter dialect)
  | None => Raise AttributeError
  end.

(** [self.data.read()[:2]] goes to the detector. *)
Definition delimiter (self : CSVpackager) : outcome string :=
  sniff_delimiter (String.substring 0 2 (data self)).

(** The first loop of [fields]: it removes from the list it iterates over. *)
Definition nameless_body (schema : loc) (field : Field) : M unit :=
  match field !! "name" with
  | Some _ => mret tt
  | None =>
      list_remove schema field ;;
      warning nameless_warning
  end.

Definition drop_nameless (schema : loc) : M unit :=
  for_in schema (nameless_body schema).

(** The second loop runs over [schema.field_names], a list of its own, and
    asks for the column names at every round. *)
Definition stale_body (self : CSVpackager) (schema : loc) (name : value)
  : M unit :=
  cols ← column_names self;
  if name_in_columns name cols then mret tt
  else remove_field schema name ;; mret tt.

Definition drop_stale (self : CSVpackager) (schema : loc) : M unit :=
  names ← field_names schema;
  for_each names (stale_body self schema).

(** The third loop reads [schema.field_names] afresh for every column. *)
Definition missing_body (schema : loc) (name : string) : M unit :=
  names ← field_names schema;
  if bool_decide (VStr name ∈ names) then mret tt
  else
    add_field schema (create_field name) ;;
    warning added_warning.

Definition add_missing (self : CSVpackager) (schema : loc) : M unit :=
  cols ← column_names self;
  for_each cols (missing_body schema).

Definition fields (self : CSVpackager) : M loc :=
  supplied ← match _fields self with
             | None => mret []
             | Some l => load l
             end;
  match supplied with
  | [] => create_fields self
  | _ :: _ =>
      (* Schema(fields=[Field(field) for field in self._fields]) *)
      schema ← alloc (Field_init <$> supplied);
      drop_nameless schema ;;
      drop_stale self schema ;;
      add_missing self schema ;;
      mret schema
  end.

(** [n] successive evaluations of [self.df]. *)
Fixpoint access_df (n : nat) (self : CSVpackager) : M (list Table) :=
  match n with
  | O => mret []
  | S n' => t ← df self; ts ← access_df n' self; mret (t :: ts)
  end.

(** The list a call of [fields] hands back, read from the store it leaves. *)
Definition fields_result (self : CSVpackager) (w : world)
  : option (list Field) :=
  match fields self w with
  | (Ok l, w') => heap w' !! l
  | _ => None
  end.

End packager.

(** ** What the loops compute *)

Definition has_name (f : Field) : bool := bool_decide (is_Some (f !! "name")).

(** The first loop on the plain list: index [i], at most [fuel] rounds. *)
Fixpoint nameless_pass (fuel i : nat) (xs : list Field) : list Field :=
  match fuel with
  | O => xs
  | S fuel' =>
      match xs !! i with
      | None => xs
      | Some x =>
          if has_name x then nameless_pass fuel' (S i) xs
          else nameless_pass fuel' (S i) (default xs (remove_first x xs))
      end
  end.

Definition after_drop_nameless (xs : list Field) : list Field :=
  nameless_pass (S (length xs)) 0 xs.

Definition after_drop_stale (cols : list string) (xs : list Field)
  : list Field :=
  filter (λ f, name_in_columns (Field_name f) cols) xs.

Fixpoint after_add_missing (cols : list string) (xs : list Field)
  : list Field :=
  match cols with
  | [] => xs
  | c :: cols' =>
      if bool_decide (VStr c ∈ Field_name <$> xs)
      then after_add_missing cols' xs
      else after_add_missing cols' (xs ++ [create_field c])
  end.

(** What the three loops leave of the list of [Field] copies. *)
Definition reconcile (cols : list string) (copies : list Field)
  : list Field :=
  after_add_missing cols
    (after_drop_stale cols (after_drop_nameless copies)).

(** The list [fields] leaves behind: generated from the columns when the
    supplied list is falsy, the [Field] copies reconciled otherwise. *)
Definition fields_output (cols : list string) (supplied : list Field)
  : list Field :=
  match supplied with
  | [] => create_field <$> cols
  | _ :: _ => reconcile cols (Field_init <$> supplied)
  end.

(** What the loops append to the log: a warning for every entry the first
    loop removes and a warning for every generated field. *)
Definition reconcile_warnings (cols : list string) (copies : list Field)
  : list string :=
  replicate (length copies - length (after_drop_nameless copies))
    nameless_warning
  ++ replicate
       (length (reconcile cols copies)
        - length (after_drop_stale cols (after_drop_nameless copies)))
       added_warning.

(** What a call appends to the log, when there is a supplied list to
    reconcile. *)
Definition warnings_logged (cols : list string) (supplied : list Field)
  : list string :=
  match supplied with
  | [] => []
  | _ :: _ => reconcile_warnings cols (Field_init <$> supplied)
  end.

(** The entry has a name, or the name it goes by for want of one is no
    column. *)
Definition default_name_free (cols : list string) (f : Field) : bool :=
  has_name f || negb (name_in_columns (Field_name f) cols).

(** The reconciled schema in the specification's words: the supplied entries
    whose name is a column name, in their order, then a generated field for
    every column that none of them names, in column order. *)
Definition named_in (cols : list string) (f : Field) : bool :=
  match f !! "name" with
  | Some name => name_in_columns name cols
  | None => false
  end.

Definition reconciled_spec (cols : list string) (supplied : list Field)
  : list Field :=
  let surviving := filter (λ f, named_in cols f) supplied in
  surviving ++
  (create_field <$>
     filter (λ c, VStr c ∉ Field_name <$> surviving) cols).

(** The reference held by the instance points at a list object. *)
Definition fields_ref_ok (self : CSVpackager) (w : world) : Prop :=
  match _fields self with
  | None => True
  | Some l => is_Some (heap w !! l)
  end.

(** The list the instance was given, [[]] standing for [None] as well. *)
Definition supplied_fields (self : CSVpackager) (w : world) : list Field :=
  match _fields self with
  | None => []
  | Some l => default [] (heap w !! l)
  end.

(** ** Concrete collaborators and inputs for the examples *)

(** A parser good enough for one-line examples: the labels of the first
    line, split at commas. *)
Fixpoint split_commas (cur : string) (s : string) : list string :=
  match s with
  | EmptyString => [cur]
  | String c s' =>
      if Ascii.eqb c ","%char then cur :: split_commas "" s'
      else if Ascii.eqb c newline then [cur]
      else split_commas (cur +:+ String c "") s'
  end.

Definition demo : Externals :=
  {| read_csv := λ text _, Ok (mkTable (split_commas "" text) []);
     detect := λ _, Some (mkDialect "," "" "") |}.

(** A store holding one list object, the one passed to the constructor. *)
Definition supplied_at : loc := 1%positive.

Definition world_with (supplied : list Field) : world :=
  mkWorld {[ supplied_at := supplied ]} [] 0.

Definition empty_world : world := mkWorld ∅ [] 0.

(** The file of the docstrings. *)
Definition tEj_text : string := "t,E,j
0,0,0
1,1,1".

(** The supplied list of the third docstring example of [fields]. *)
Definition docstring_fields : list Field :=
  [ {[ "name" := VStr "E"; "unit" := VStr "V"; "reference" := VStr "RHE" ]};
    {[ "name" := VStr "j"; "unit" := VStr "uA / cm2" ]};
    {[ "name" := VStr "x" ]};
    {[ "foo" := VStr "bar" ]} ].

(** Files with a column called [any], the name a descriptor without name
    and type goes by. *)
Definition any_E_text : string := "any,E
0,0
1,1".

Definition any_b_text : string := "any,b
0,0
1,1".

(** A file with the one column [E], and an entry with a deprecated
    format. *)
Definition E_text : string := "E
0
1".

Definition deprecated_format : list Field :=
  [ {[ "name" := VStr "E"; "format" := VStr "fmt:%d" ]} ].

(** A file with a column called [field]. *)
Definition field_E_text : string := "field,E
0,0
1,1".

Definition field_b_text : string := "field,b
0,0
1,1".

(** Supplied lists with two entries without a name next to each other. *)
Definition two_nameless : list Field :=
  [ {[ "foo" := VStr "bar" ]}; {[ "baz" := VStr "qux" ]} ].

(** A supplied list with an entry for a column that does not exist. *)
Definition a_text : string := "a
0
1".

Definition named_and_stale : list Field :=
  [ {[ "name" := VStr "a" ]}; {[ "name" := VStr "x" ]} ].

Definition named_then_two_nameless : list Field :=
  [ {[ "name" := VStr "E"; "unit" := VStr "V" ]};
    {[ "foo" := VStr "bar" ]};
    {[ "baz" := VStr "qux" ]} ].

(** ** The header, and further inputs *)

(** [lines = self.file.readlines()] and
    [[lines[_] for _ in range(self.header_lines)]]; [None] stands for the
    [IndexError] of a line that is not there. *)
Definition header (self : CSVpackager) : option (list string) :=
  let lines := readlines (file self) in
  mapM (λ i, lines !! i) (seq 0 (header_lines self)).

(** No entry without a name directly follows another one. *)
Fixpoint no_adjacent_nameless (xs : list Field) : bool :=
  match xs with
  | [] => true
  | x :: rest =>
      match rest with
      | [] => true
      | y :: _ => (has_name x || has_name y) && no_adjacent_nameless rest
      end
  end.

(** The same instance with another reference as its supplied list. *)
Definition with_fields (self : CSVpackager) (l : loc) : CSVpackager :=
  mkCSVpackager (_file self) (_metadata self) (Some l) (device self).

(** A parser that rejects every text. *)
Definition rejecting : Externals :=
  {| read_csv := λ _ _, Raise ParserError;
     detect := λ _, None |}.

(** An instrument file with two header lines, and its variant. *)
Definition instrument_text : string := "Device file
Nb header lines : 3
t,E
0,1
".

Definition instrument : CSVpackager :=
  mkCSVpackager instrument_text ∅ None (Some (mkDevice 2 ",")).

(** A complete supplied list for the columns [t], [E] and [j]. *)
Definition complete_fields : list Field :=
  [ {[ "name" := VStr "j"; "unit" := VStr "uA / cm2" ]};
    {[ "name" := VStr "t"; "unit" := VStr "s" ]};
    {[ "name" := VStr "E"; "unit" := VStr "V" ]} ].

(** Nameless entries, none next to another. *)
Definition spaced_nameless : list Field :=
  [ {[ "foo" := VStr "bar" ]};
    {[ "name" := VStr "field" ]};
    {[ "baz" := VStr "qux" ]};
    {[ "name" := VStr "x" ]} ].

(** Entries for columns that do not exist. *)
Definition all_stale : list Field :=
  [ {[ "name" := VStr "x" ]}; {[ "name" := VStr "y"; "unit" := VStr "V" ]} ].

(** ** Lines *)

Lemma join_readlines (s : string) : join (readlines s) = s.
Proof.
  induction s as [|c s IH]; simpl; [done|].
  destruct (Ascii.eqb c newline); simpl; [by rewrite IH|].
  destruct (readlines s) as [|line lines]; simpl in *; by rewrite <- IH.
Qed.

Lemma tail_readlines (s : string) :
  drop 1 (readlines s) = readlines (after_line s).
Proof.
  induction s as [|c s IH]; simpl; [done|].
  destruct (Ascii.eqb c newline); simpl; [by rewrite drop_0|].
  rewrite <- IH. by destruct (readlines s).
Qed.

Lemma join_drop_readlines (n : nat) (s : string) :
  join (drop n (readlines s)) = after_lines n s.
Proof.
  revert s. induction n as [|n IH]; intros s; simpl.
  - by rewrite drop_0, join_readlines.
  - rewrite <- IH, <- tail_readlines, drop_drop. done.
Qed.

Lemma data_after_lines (self : CSVpackager) :
  data self = after_lines (S (header_lines self)) (file self).
Proof.
  unfold data. by rewrite Nat.add_1_r, join_drop_readlines.
Qed.

(** ** Running the monad *)

Lemma bind_ok {A B} (m : M A) (f : A → M B) (w w' : world) (a : A) :
  m w = (Ok a, w') → (m ≫= f) w = f a w'.
Proof. unfold mbind, M_bind. by intros ->. Qed.

Lemma bind_raise {A B} (m : M A) (f : A → M B) (w w' : world) (e : exn) :
  m w = (Raise e, w') → (m ≫= f) w = (Raise e, w').
Proof. unfold mbind, M_bind. by intros ->. Qed.

(** One step of a run: the first action of a bind returned normally. *)
Tactic Notation "step_with" uconstr(E) := rewrite (bind_ok _ _ _ _ _ E).

Lemma world_eta (w : world) : mkWorld (heap w) (log w) (parses w) = w.
Proof. by destruct w. Qed.

Lemma load_ok (l : loc) (w : world) (xs : list Field) :
  heap w !! l = Some xs → load l w = (Ok xs, w).
Proof. unfold load. by intros ->. Qed.

Lemma field_names_ok (l : loc) (w : world) (xs : list Field) :
  heap w !! l = Some xs → field_names l w = (Ok (Field_name <$> xs), w).
Proof.
  intros Hl. unfold field_names. by step_with (load_ok _ _ _ Hl).
Qed.

Lemma list_remove_ok (l : loc) (w : world) (x : Field) (xs xs' : list Field) :
  heap w !! l = Some xs → remove_first x xs = Some xs' →
  list_remove l x w = (Ok tt, mkWorld (<[l := xs']> (heap w)) (log w) (parses w)).
Proof.
  intros Hl Hr. unfold list_remove.
  rewrite (bind_ok _ _ _ _ _ (load_ok _ _ _ Hl)), Hr. done.
Qed.

Lemma add_field_ok (l : loc) (w : world) (f : Field) (xs : list Field) :
  heap w !! l = Some xs →
  add_field l f w
  = (Ok tt, mkWorld (<[l := xs ++ [f]]> (heap w)) (log w) (parses w)).
Proof.
  intros Hl. unfold add_field.
  by step_with (load_ok _ _ _ Hl).
Qed.

(** ** Python's [list.remove] *)

Lemma remove_first_elem (x : Field) (xs : list Field) :
  x ∈ xs → is_Some (remove_first x xs).
Proof.
  induction xs as [|y ys IH]; intros Hx; simpl.
  - by apply elem_of_nil in Hx.
  - destruct (decide (y = x)) as [->|Hne]; [by eexists|].
    apply elem_of_cons in Hx as [->|Hx]; [done|].
    destruct (IH Hx) as [ys' ->]. by eexists.
Qed.

Lemma remove_first_length (x : Field) (xs xs' : list Field) :
  remove_first x xs = Some xs' → length xs = S (length xs').
Proof.
  revert xs'. induction xs as [|y ys IH]; intros xs'; simpl; [done|].
  destruct (decide (y = x)); [by intros [= ->]|].
  destruct (remove_first x ys) as [ys'|]; simpl; [|done].
  intros [= <-]. simpl. by rewrite (IH ys').
Qed.

Lemma remove_first_middle (x : Field) (pre suf : list Field) :
  x ∉ pre → remove_first x (pre ++ x :: suf) = Some (pre ++ suf).
Proof.
  induction pre as [|y pre IH]; intros Hx; simpl.
  - by rewrite decide_True.
  - apply not_elem_of_cons in Hx as [Hne Hx].
    rewrite decide_False by done. by rewrite IH.
Qed.

(** Removing an element that fails a test leaves the elements that pass it,
    and their order, alone. *)
Lemma remove_first_filter (P : Field → bool) (x : Field) (xs xs' : list Field) :
  P x = false → remove_first x xs = Some xs' →
  filter (λ f, P f) xs' = filter (λ f, P f) xs.
Proof.
  intros HP. revert xs'. induction xs as [|y ys IH]; intros xs'; simpl; [done|].
  destruct (decide (y = x)) as [->|Hne].
  - intros [= ->]. rewrite filter_cons_False; [done|]. rewrite HP. by intros [].
  - destruct (remove_first x ys) as [ys'|]; simpl; [|done].
    intros [= <-]. rewrite !filter_cons. by rewrite (IH ys').
Qed.

(** ** The first loop *)

Lemma has_name_lookup (f : Field) :
  has_name f = match f !! "name" with Some _ => true | None => false end.
Proof.
  unfold has_name. destruct (f !! "name") eqn:E.
  - by rewrite bool_decide_eq_true_2.
  - rewrite bool_decide_eq_false_2; [done|]. by intros [? ?].
Qed.

Lemma for_in_from_S (fuel : nat) (l : loc) (i : nat) (body : Field → M unit) :
  for_in_from (S fuel) l i body =
  (xs ← load l;
   match xs !! i with
   | None => mret tt
   | Some x => body x ≫= λ _, for_in_from fuel l (S i) body
   end).
Proof. reflexivity. Qed.

Lemma nameless_pass_S (fuel i : nat) (xs : list Field) :
  nameless_pass (S fuel) i xs =
  match xs !! i with
  | None => xs
  | Some x =>
      if has_name x then nameless_pass fuel (S i) xs
      else nameless_pass fuel (S i) (default xs (remove_first x xs))
  end.
Proof. reflexivity. Qed.

Lemma nameless_pass_length (fuel : nat) :
  ∀ (i : nat) (xs : list Field),
    (length (nameless_pass fuel i xs) ≤ length xs)%nat.
Proof.
  induction fuel as [|fuel IH]; intros i xs; [done|].
  rewrite nameless_pass_S.
  destruct (xs !! i) as [x|] eqn:Hi; [|done].
  destruct (has_name x); [apply IH|].
  destruct (remove_first_elem x xs) as [xs' Hrm].
  { by eapply list_elem_of_lookup_2. }
  rewrite Hrm. simpl default. apply remove_first_length in Hrm.
  specialize (IH (S i) xs'). lia.
Qed.

Lemma for_in_from_nameless (schema : loc) (fuel : nat) :
  ∀ (i : nat) (xs : list Field) (w : world),
    heap w !! schema = Some xs →
    length xs - i < fuel →
    for_in_from fuel schema i (nameless_body schema) w
    = (Ok tt, mkWorld (<[schema := nameless_pass fuel i xs]> (heap w))
                      (log w ++ replicate
                                  (length xs
                                   - length (nameless_pass fuel i xs))
                                  nameless_warning)
                      (parses w)).
Proof.
  induction fuel as [|fuel IH]; intros i xs w Hl Hfuel; [lia|].
  rewrite for_in_from_S, nameless_pass_S.
  step_with (load_ok _ _ _ Hl).
  destruct (xs !! i) as [x|] eqn:Hi.
  - assert (i < length xs) as Hlt by (by apply lookup_lt_Some in Hi).
    rewrite has_name_lookup.
    destruct (x !! "name") as [v|] eqn:Hname.
    + erewrite bind_ok by (unfold nameless_body; by rewrite Hname).
      apply (IH (S i) xs w Hl). lia.
    + destruct (remove_first_elem x xs) as [xs' Hrm].
      { by eapply list_elem_of_lookup_2. }
      rewrite Hrm. simpl default.
      erewrite bind_ok; last first.
      { unfold nameless_body. rewrite Hname.
        erewrite bind_ok by (by apply (list_remove_ok _ _ _ _ _ Hl Hrm)).
        reflexivity. }
      apply remove_first_length in Hrm as Hlen.
      cbn [heap log parses].
      rewrite (IH (S i) xs'
                 (mkWorld (<[schema:=xs']> (heap w))
                    (log w ++ [nameless_warning]) (parses w)));
        [|apply lookup_insert_eq|cbn [heap]; lia].
      cbn [heap log parses]. rewrite insert_insert_eq, <- app_assoc.
      pose proof (nameless_pass_length fuel (S i) xs') as Hle.
      replace (length xs - length (nameless_pass fuel (S i) xs'))
        with (S (length xs' - length (nameless_pass fuel (S i) xs')))
        by lia.
      done.
  - rewrite Nat.sub_diag. simpl. unfold mret, M_ret.
    by rewrite insert_id, app_nil_r, world_eta.
Qed.

Lemma drop_nameless_run (schema : loc) (xs : list Field) (w : world) :
  heap w !! schema = Some xs →
  drop_nameless schema w
  = (Ok tt, mkWorld (<[schema := after_drop_nameless xs]> (heap w))
                    (log w ++ replicate
                                (length xs - length (after_drop_nameless xs))
                                nameless_warning)
                    (parses w)).
Proof.
  intros Hl. unfold drop_nameless, for_in.
  step_with (load_ok _ _ _ Hl).
  apply (for_in_from_nameless schema (S (length xs)) 0 xs w Hl). lia.
Qed.

(** ** The second and third loops *)

Lemma find_middle {A} (P : A → bool) (pre suf : list A) (a : A) :
  Forall (λ y, P y = false) pre → P a = true →
  List.find P (pre ++ a :: suf) = Some a.
Proof.
  intros Hpre Ha. induction Hpre as [|y pre Hy _ IH]; simpl.
  - by rewrite Ha.
  - by rewrite Hy.
Qed.

Section loops.
Context `{Externals}.
Variables (self : CSVpackager) (t : Table).
Hypothesis Hparse : read_csv (file self) (header_lines self) = Ok t.

Lemma df_ok (w : world) :
  df self w = (Ok t, mkWorld (heap w) (log w) (S (parses w))).
Proof. unfold df. by rewrite Hparse. Qed.

Lemma column_names_ok (w : world) :
  column_names self w
  = (Ok (columns t), mkWorld (heap w) (log w) (S (parses w))).
Proof. unfold column_names. by step_with (df_ok w). Qed.

Lemma stale_body_keep (schema : loc) (name : value) (w : world) :
  name_in_columns name (columns t) = true →
  stale_body self schema name w
  = (Ok tt, mkWorld (heap w) (log w) (S (parses w))).
Proof.
  intros Hin. unfold stale_body.
  step_with (column_names_ok w). by rewrite Hin.
Qed.

Lemma stale_body_drop (schema : loc) (w : world) (pre suf : list Field)
    (a : Field) :
  heap w !! schema = Some (pre ++ a :: suf) →
  Forall (λ f, name_in_columns (Field_name f) (columns t)) pre →
  name_in_columns (Field_name a) (columns t) = false →
  stale_body self schema (Field_name a) w
  = (Ok tt, mkWorld (<[schema := pre ++ suf]> (heap w)) (log w)
                    (S (parses w))).
Proof.
  intros Hl Hpre Ha. unfold stale_body.
  step_with (column_names_ok w). rewrite Ha.
  assert (Forall (λ y, bool_decide (Field_name y = Field_name a) = false) pre)
    as Hnames.
  { eapply Forall_impl; [exact Hpre|]. intros y Hy. simpl in Hy.
    apply bool_decide_eq_false_2. intros Heq. rewrite Heq, Ha in Hy. done. }
  assert (a ∉ pre) as Hnotin.
  { intros Hin. rewrite Forall_forall in Hnames.
    specialize (Hnames a Hin). by rewrite bool_decide_eq_true_2 in Hnames. }
  set (w1 := mkWorld (heap w) (log w) (S (parses w))).
  assert (heap w1 !! schema = Some (pre ++ a :: suf)) as Hl1 by done.
  erewrite bind_ok; last first.
  { unfold remove_field. erewrite bind_ok; last first.
    { unfold get_field. step_with (load_ok _ _ _ Hl1).
      rewrite (find_middle _ pre suf a Hnames); [reflexivity|].
      by apply bool_decide_eq_true_2. }
    erewrite bind_ok; last first.
    { eapply list_remove_ok; [exact Hl1|]. by apply remove_first_middle. }
    reflexivity. }
  done.
Qed.

Lemma for_each_stale (schema : loc) (suf : list Field) :
  ∀ (pre : list Field) (w : world),
    heap w !! schema = Some (pre ++ suf) →
    Forall (λ f, name_in_columns (Field_name f) (columns t)) pre →
    for_each (Field_name <$> suf) (stale_body self schema) w
    = (Ok tt, mkWorld (<[schema := pre ++ after_drop_stale (columns t) suf]>
                         (heap w))
                      (log w) (parses w + length suf)).
Proof.
  induction suf as [|a suf IH]; intros pre w Hl Hpre.
  - simpl. unfold mret, M_ret, after_drop_stale. rewrite filter_nil.
    by rewrite insert_id, Nat.add_0_r, world_eta.
  - rewrite fmap_cons. simpl for_each. unfold after_drop_stale.
    destruct (name_in_columns (Field_name a) (columns t)) eqn:Ha.
    + step_with (stale_body_keep schema _ w Ha).
      rewrite (IH (pre ++ [a])); cbn [heap log parses].
      * rewrite filter_cons_True by (by rewrite Ha).
        unfold after_drop_stale. rewrite <- app_assoc. simpl.
        do 2 f_equal. lia.
      * by rewrite <- app_assoc.
      * apply Forall_app. split; [done|]. apply Forall_singleton. by rewrite Ha.
    + step_with (stale_body_drop schema w pre suf a Hl Hpre Ha).
      rewrite (IH pre); cbn [heap log parses].
      * rewrite filter_cons_False by (rewrite Ha; by intros []).
        unfold after_drop_stale. rewrite insert_insert_eq.
        do 2 f_equal. simpl. lia.
      * apply lookup_insert_eq.
      * done.
Qed.

Lemma drop_stale_run (schema : loc) (xs : list Field) (w : world) :
  heap w !! schema = Some xs →
  drop_stale self schema w
  = (Ok tt, mkWorld (<[schema := after_drop_stale (columns t) xs]> (heap w))
                    (log w) (parses w + length xs)).
Proof.
  intros Hl. unfold drop_stale.
  step_with (field_names_ok _ _ _ Hl).
  apply (for_each_stale schema xs [] w); [done|constructor].
Qed.

Lemma after_add_missing_length (cols : list string) :
  ∀ xs : list Field, (length xs ≤ length (after_add_missing cols xs))%nat.
Proof.
  induction cols as [|c cols IH]; intros xs; [done|].
  simpl. destruct (bool_decide (VStr c ∈ Field_name <$> xs)); [apply IH|].
  specialize (IH (xs ++ [create_field c])). rewrite length_app in IH.
  simpl in IH. lia.
Qed.

Lemma for_each_missing (schema : loc) (cols : list string) :
  ∀ (xs : list Field) (w : world),
    heap w !! schema = Some xs →
    for_each cols (missing_body schema) w
    = (Ok tt, mkWorld (<[schema := after_add_missing cols xs]> (heap w))
                      (log w ++ replicate
                                  (length (after_add_missing cols xs)
                                   - length xs)
                                  added_warning)
                      (parses w)).
Proof.
  induction cols as [|c cols IH]; intros xs w Hl.
  - simpl. rewrite Nat.sub_diag. simpl. unfold mret, M_ret.
    by rewrite insert_id, app_nil_r, world_eta.
  - simpl for_each. simpl after_add_missing.
    destruct (bool_decide (VStr c ∈ Field_name <$> xs)) eqn:Hc.
    + erewrite bind_ok; last first.
      { unfold missing_body.
        step_with (field_names_ok _ _ _ Hl).
        rewrite Hc. reflexivity. }
      by apply IH.
    + erewrite bind_ok; last first.
      { unfold missing_body.
        step_with (field_names_ok _ _ _ Hl).
        rewrite Hc.
        step_with (add_field_ok _ _ _ _ Hl).
        reflexivity. }
      cbn [heap log parses].
      rewrite (IH (xs ++ [create_field c])
                 (mkWorld (<[schema:=xs ++ [create_field c]]> (heap w))
                    (log w ++ [added_warning]) (parses w)));
        [|apply lookup_insert_eq].
      cbn [heap log parses]. rewrite insert_insert_eq, <- app_assoc.
      pose proof (after_add_missing_length cols (xs ++ [create_field c]))
        as Hle.
      rewrite length_app in Hle. simpl in Hle.
      replace (length (after_add_missing cols (xs ++ [create_field c]))
               - length xs)
        with (S (length (after_add_missing cols (xs ++ [create_field c]))
                 - length (xs ++ [create_field c])))
        by (rewrite length_app; simpl; lia).
      done.
Qed.

Lemma add_missing_run (schema : loc) (xs : list Field) (w : world) :
  heap w !! schema = Some xs →
  add_missing self schema w
  = (Ok tt, mkWorld (<[schema := after_add_missing (columns t) xs]> (heap w))
                    (log w ++ replicate
                                (length (after_add_missing (columns t) xs)
                                 - length xs)
                                added_warning)
                    (S (parses w))).
Proof.
  intros Hl. unfold add_missing.
  step_with (column_names_ok w).
  apply (for_each_missing schema (columns t) xs
           (mkWorld (heap w) (log w) (S (parses w))) Hl).
Qed.

End loops.

(** ** One call of [fields] *)

Lemma alloc_ok (xs : list Field) (w : world) :
  alloc xs w
  = (Ok (fresh (dom (heap w))),
     mkWorld (<[fresh (dom (heap w)) := xs]> (heap w)) (log w) (parses w)).
Proof. reflexivity. Qed.

Lemma fresh_not_allocated (w : world) : heap w !! fresh (dom (heap w)) = None.
Proof. apply not_elem_of_dom, is_fresh. Qed.

Section one_call.
Context `{Externals}.
Variables (self : CSVpackager) (t : Table).
Hypothesis Hparse : read_csv (file self) (header_lines self) = Ok t.

Lemma create_fields_run (w : world) :
  create_fields self w
  = (Ok (fresh (dom (heap w))),
     mkWorld (<[fresh (dom (heap w)) := create_field <$> columns t]> (heap w))
             (log w) (S (parses w))).
Proof.
  unfold create_fields.
  by step_with (column_names_ok self t Hparse w).
Qed.

Lemma supplied_load (w : world) :
  fields_ref_ok self w →
  match _fields self with
  | None => mret []
  | Some l => load l
  end w = (Ok (supplied_fields self w), w).
Proof.
  unfold fields_ref_ok, supplied_fields.
  destruct (_fields self) as [l|]; [|done].
  intros [xs Hxs]. rewrite Hxs. by apply load_ok.
Qed.

(** A call returns a new list object holding [fields_output]; it appends to
    the log, calls the parser, and writes nowhere else. *)
Lemma fields_run (w : world) :
  fields_ref_ok self w →
  ∃ k,
    fields self w
    = (Ok (fresh (dom (heap w))),
       mkWorld (<[fresh (dom (heap w))
                  := fields_output (columns t) (supplied_fields self w)]>
                  (heap w))
               (log w ++ warnings_logged (columns t) (supplied_fields self w))
               (parses w + S k)).
Proof.
  intros Hok. unfold fields.
  step_with (supplied_load w Hok).
  destruct (supplied_fields self w) as [|x xs] eqn:Hsup.
  - exists 0. rewrite create_fields_run. simpl fields_output.
    simpl warnings_logged. by rewrite app_nil_r, Nat.add_1_r.
  - set (l := fresh (dom (heap w))).
    set (sup := Field_init <$> x :: xs).
    step_with (alloc_ok sup w). fold l.
    set (w1 := mkWorld (<[l:=sup]> (heap w)) (log w) (parses w)).
    assert (heap w1 !! l = Some sup) as Hl1 by apply lookup_insert_eq.
    step_with (drop_nameless_run l sup w1 Hl1).
    set (w2 := mkWorld _ _ _).
    assert (heap w2 !! l = Some (after_drop_nameless sup)) as Hl2
        by apply lookup_insert_eq.
    step_with (drop_stale_run self t Hparse l _ w2 Hl2).
    set (w3 := mkWorld _ _ _).
    assert (heap w3 !! l
            = Some (after_drop_stale (columns t) (after_drop_nameless sup)))
      as Hl3 by apply lookup_insert_eq.
    step_with (add_missing_run self t Hparse l _ w3 Hl3).
    exists (length (after_drop_nameless sup)).
    unfold mret, M_ret. subst w3 w2 w1. cbn [heap log parses].
    rewrite !insert_insert_eq, <- app_assoc.
    unfold fields_output, warnings_logged, reconcile_warnings, reconcile.
    subst sup. do 2 f_equal. lia.
Qed.

End one_call.

(** X3. A failure of the parser is not caught: whatever the supplied list,
    the exception [pd.read_csv] raises comes out of [fields]. *)
Lemma fields_propagates_parse_error `{Externals} (self : CSVpackager)
    (e : exn) (w : world) :
  read_csv (file self) (header_lines self) = Raise e →
  fields_ref_ok self w →
  ∃ w', fields self w = (Raise e, w').
Proof.
  intros Hparse Hok.
  assert (∀ w0, column_names self w0
                = (Raise e, mkWorld (heap w0) (log w0) (S (parses w0))))
    as Hcols.
  { intros w0. unfold column_names. erewrite bind_raise; [done|].
    unfold df. by rewrite Hparse. }
  unfold fields. step_with (supplied_load self w Hok).
  destruct (supplied_fields self w) as [|x xs].
  - unfold create_fields. erewrite bind_raise by apply Hcols. by eexists.
  - set (sup := Field_init <$> x :: xs). step_with (alloc_ok sup w).
    set (l := fresh (dom (heap w))).
    set (w1 := mkWorld (<[l:=sup]> (heap w)) (log w) (parses w)).
    assert (heap w1 !! l = Some sup) as Hl1 by apply lookup_insert_eq.
    step_with (drop_nameless_run l sup w1 Hl1).
    set (w2 := mkWorld _ _ _).
    assert (heap w2 !! l = Some (after_drop_nameless sup)) as Hl2
        by apply lookup_insert_eq.
    unfold drop_stale.
    destruct (after_drop_nameless sup) as [|y ys].
    + erewrite bind_ok; last first.
      { step_with (field_names_ok _ _ _ Hl2). reflexivity. }
      erewrite bind_raise; [by eexists|].
      unfold add_missing. erewrite bind_raise by apply Hcols. done.
    + erewrite bind_raise; [by eexists|].
      step_with (field_names_ok _ _ _ Hl2).
      rewrite fmap_cons. simpl for_each.
      erewrite bind_raise; [done|].
      unfold stale_body. erewrite bind_raise by apply Hcols. done.
Qed.

(** ** The loops on plain lists *)

Lemma filter_iff_in {A} (P1 P2 : A → Prop)
    `{!∀ x, Decision (P1 x), !∀ x, Decision (P2 x)} (l : list A) :
  (∀ x, x ∈ l → P1 x ↔ P2 x) → filter P1 l = filter P2 l.
Proof.
  induction l as [|a l IH]; intros Hiff; [done|].
  rewrite !filter_cons.
  rewrite IH by (intros x Hx; apply Hiff; by right).
  apply decide_ext, Hiff. by left.
Qed.

Lemma filter_all {A} (P : A → Prop) `{!∀ x, Decision (P x)} (l : list A) :
  (∀ x, x ∈ l → P x) → filter P l = l.
Proof.
  induction l as [|a l IH]; intros HP; [done|].
  rewrite filter_cons_True by (apply HP; by left).
  rewrite IH; [done|]. intros x Hx. apply HP. by right.
Qed.

Lemma has_name_true (f : Field) : has_name f = true ↔ is_Some (f !! "name").
Proof. unfold has_name. apply bool_decide_eq_true. Qed.

Lemma create_field_name (c : string) : Field_name (create_field c) = VStr c.
Proof. unfold Field_name, create_field. by rewrite lookup_insert_eq. Qed.

(** The first loop only ever removes entries without a name, so the named
    entries and their order come through. *)
Lemma nameless_pass_filter (fuel : nat) :
  ∀ (i : nat) (xs : list Field),
    filter (λ f, has_name f) (nameless_pass fuel i xs)
    = filter (λ f, has_name f) xs.
Proof.
  induction fuel as [|fuel IH]; intros i xs; [done|].
  rewrite nameless_pass_S.
  destruct (xs !! i) as [x|] eqn:Hi; [|done].
  destruct (has_name x) eqn:Hx; [apply IH|].
  destruct (remove_first_elem x xs) as [xs' Hrm].
  { by eapply list_elem_of_lookup_2. }
  rewrite Hrm. simpl default. rewrite IH.
  by apply (remove_first_filter has_name x).
Qed.

(** With a name on every entry the first loop changes nothing. *)
Lemma nameless_pass_named (fuel : nat) :
  ∀ (i : nat) (xs : list Field),
    Forall (λ f, has_name f) xs → nameless_pass fuel i xs = xs.
Proof.
  induction fuel as [|fuel IH]; intros i xs Hall; [done|].
  rewrite nameless_pass_S.
  destruct (xs !! i) as [x|] eqn:Hi; [|done].
  rewrite Forall_lookup in Hall. specialize (Hall i x Hi) as Hx.
  destruct (has_name x); [|done].
  apply IH. by rewrite Forall_lookup.
Qed.

Lemma after_add_missing_spec (cols : list string) :
  ∀ xs : list Field,
    NoDup cols →
    after_add_missing cols xs
    = xs ++ (create_field <$>
               filter (λ c, VStr c ∉ Field_name <$> xs) cols).
Proof.
  induction cols as [|c cols IH]; intros xs Hnd.
  - simpl. by rewrite app_nil_r.
  - apply NoDup_cons in Hnd as [Hc Hnd]. simpl after_add_missing.
    destruct (bool_decide (VStr c ∈ Field_name <$> xs)) eqn:Hin.
    + apply bool_decide_eq_true in Hin.
      rewrite filter_cons_False by (intros Hn; by apply Hn).
      by apply IH.
    + apply bool_decide_eq_false in Hin.
      rewrite filter_cons_True by done.
      rewrite IH by done. rewrite fmap_cons, <- app_assoc. simpl.
      do 3 f_equal. apply filter_iff_in. intros c' Hc'.
      rewrite fmap_app, not_elem_of_app. simpl.
      rewrite create_field_name, list_elem_of_singleton.
      split; [by intros [? _]|]. intros Hn. split; [done|].
      intros [= ->]. done.
Qed.

Lemma fmap_sublist {A B} (f : A → B) (l1 l2 : list A) :
  l1 `sublist_of` l2 → (f <$> l1) `sublist_of` (f <$> l2).
Proof.
  induction 1 as [|x l1 l2 _ IH|x l1 l2 _ IH]; simpl.
  - constructor.
  - by apply sublist_skip.
  - by apply sublist_cons.
Qed.

Lemma remove_first_sublist (x : Field) (xs xs' : list Field) :
  remove_first x xs = Some xs' → xs' `sublist_of` xs.
Proof.
  revert xs'. induction xs as [|y ys IH]; intros xs'; simpl; [done|].
  destruct (decide (y = x)); [intros [= ->]; by apply sublist_cons|].
  destruct (remove_first x ys) as [ys'|]; simpl; [|done].
  intros [= <-]. by apply sublist_skip, IH.
Qed.

Lemma nameless_pass_sublist (fuel : nat) :
  ∀ (i : nat) (xs : list Field), nameless_pass fuel i xs `sublist_of` xs.
Proof.
  induction fuel as [|fuel IH]; intros i xs; [done|].
  rewrite nameless_pass_S.
  destruct (xs !! i) as [x|] eqn:Hi; [|done].
  destruct (has_name x); [apply IH|].
  destruct (remove_first_elem x xs) as [xs' Hrm].
  { by eapply list_elem_of_lookup_2. }
  rewrite Hrm. simpl default.
  etrans; [apply IH|]. by eapply remove_first_sublist.
Qed.

(** [Field(descriptor)] touches the [format] only. *)
Lemma Field_init_lookup (f : Field) (k : string) :
  k ≠ "format" → Field_init f !! k = f !! k.
Proof.
  intros Hk. unfold Field_init.
  destruct (f !! "format") as [[fmt| |]|]; try done.
  destruct (String.prefix "fmt:" fmt); [|done].
  by rewrite lookup_insert_ne.
Qed.

Lemma Field_init_name (f : Field) : Field_name (Field_init f) = Field_name f.
Proof.
  unfold Field_name, Field_type. by rewrite !Field_init_lookup.
Qed.

Lemma Field_init_has_name (f : Field) : has_name (Field_init f) = has_name f.
Proof. by rewrite !has_name_lookup, Field_init_lookup. Qed.

Lemma Field_init_named_in (cols : list string) (f : Field) :
  named_in cols (Field_init f) = named_in cols f.
Proof. unfold named_in. by rewrite Field_init_lookup. Qed.

Lemma Field_init_names (xs : list Field) :
  Field_name <$> (Field_init <$> xs) = Field_name <$> xs.
Proof.
  rewrite <- list_fmap_compose. apply list_fmap_ext.
  intros i f _. apply Field_init_name.
Qed.

Lemma Field_init_create_field (c : string) :
  Field_init (create_field c) = create_field c.
Proof.
  unfold Field_init, create_field.
  rewrite lookup_insert_ne by done. by rewrite lookup_singleton_ne.
Qed.

Lemma default_name_free_named (cols : list string) (f : Field) :
  has_name f → default_name_free cols f.
Proof. unfold default_name_free. by destruct (has_name f). Qed.

Lemma Field_init_default_name_free (cols : list string) (f : Field) :
  default_name_free cols (Field_init f) = default_name_free cols f.
Proof.
  unfold default_name_free. by rewrite Field_init_has_name, Field_init_name.
Qed.

(** The name a field goes by is a column name exactly when the field
    carries a name that is one, unless the field has no name and the name it
    goes by for want of one is a column. *)
Lemma name_in_columns_named (cols : list string) (f : Field) :
  default_name_free cols f →
  name_in_columns (Field_name f) cols = named_in cols f.
Proof.
  unfold default_name_free, Field_name, named_in. rewrite has_name_lookup.
  destruct (f !! "name") as [v|]; [done|]. simpl.
  by destruct (name_in_columns (Field_type f) cols).
Qed.

Lemma named_in_has_name (cols : list string) (f : Field) :
  named_in cols f → has_name f.
Proof.
  unfold named_in. intros Hn. apply Is_true_true, has_name_true.
  destruct (f !! "name"); [by eexists|done].
Qed.

(** The loops compute the list the specification describes whenever every
    entry has a name or goes, for want of one, by a name that is no
    column. *)
Lemma reconcile_reconciled (cols : list string) (xs : list Field) :
  NoDup cols →
  Forall (λ f, default_name_free cols f) xs →
  reconcile cols xs = reconciled_spec cols xs.
Proof.
  intros Hnd Hfree. unfold reconcile, reconciled_spec.
  rewrite after_add_missing_spec by done.
  assert (after_drop_stale cols (after_drop_nameless xs)
          = filter (λ f, named_in cols f) xs) as ->; [|done].
  unfold after_drop_stale, after_drop_nameless.
  rewrite (filter_iff_in _ (λ f, named_in cols f)); last first.
  { intros f Hf. rewrite name_in_columns_named; [done|].
    rewrite Forall_forall in Hfree. apply Hfree.
    eapply elem_of_sublist; [exact Hf|apply nameless_pass_sublist]. }
  rewrite <- (list_filter_filter_l (λ f, named_in cols f)
                (λ f, has_name f) (nameless_pass _ _ _))
    by apply named_in_has_name.
  rewrite nameless_pass_filter.
  by rewrite list_filter_filter_l by apply named_in_has_name.
Qed.

Lemma fields_output_reconciled (cols : list string) (supplied : list Field) :
  NoDup cols →
  Forall (λ f, default_name_free cols f) supplied →
  fields_output cols supplied
  = reconciled_spec cols (Field_init <$> supplied).
Proof.
  intros Hnd Hfree. unfold fields_output.
  destruct supplied as [|x xs].
  - unfold reconciled_spec. rewrite fmap_nil, filter_nil. simpl. f_equal.
    symmetry. apply filter_all. intros c _. apply not_elem_of_nil.
  - apply reconcile_reconciled; [done|].
    apply Forall_fmap. eapply Forall_impl; [exact Hfree|].
    intros f Hf. simpl. by rewrite Field_init_default_name_free.
Qed.

(** Every entry the loops leave has a name under the same condition: a
    nameless entry the first loop stepped over is then removed by the
    second. *)
Lemma after_add_missing_named (cols : list string) :
  ∀ xs : list Field,
    Forall (λ f, has_name f) xs →
    Forall (λ f, has_name f) (after_add_missing cols xs).
Proof.
  induction cols as [|c cols IH]; intros xs Hxs; [done|].
  simpl. destruct (bool_decide (VStr c ∈ Field_name <$> xs)); [by apply IH|].
  apply IH, Forall_app. split; [done|]. by apply Forall_singleton.
Qed.

Lemma reconcile_named (cols : list string) (xs : list Field) :
  Forall (λ f, default_name_free cols f) xs →
  Forall (λ f, has_name f) (reconcile cols xs).
Proof.
  intros Hfree. unfold reconcile. apply after_add_missing_named.
  unfold after_drop_stale. apply Forall_forall. intros f Hf.
  apply list_elem_of_filter in Hf as [Hcol Hf].
  assert (default_name_free cols f) as Hfr.
  { rewrite Forall_forall in Hfree. apply Hfree.
    eapply elem_of_sublist; [exact Hf|apply nameless_pass_sublist]. }
  rewrite (name_in_columns_named cols f Hfr) in Hcol.
  by apply (named_in_has_name cols).
Qed.

Lemma fields_output_named (cols : list string) (supplied : list Field) :
  Forall (λ f, default_name_free cols f) supplied →
  Forall (λ f, has_name f) (fields_output cols supplied).
Proof.
  intros Hfree. unfold fields_output. destruct supplied as [|x xs].
  - apply Forall_fmap, Forall_true. done.
  - apply reconcile_named.
    apply Forall_fmap. eapply Forall_impl; [exact Hfree|].
    intros f Hf. simpl. by rewrite Field_init_default_name_free.
Qed.

(** ** The docstring examples *)

Example fields_docstring_generated :
  @fields_result demo (init tEj_text None None) empty_world
  = Some [create_field "t"; create_field "E"; create_field "j"].
Proof. vm_compute. reflexivity. Qed.

Example fields_docstring_reconciled :
  @fields_result demo (init tEj_text None (Some supplied_at))
    (world_with docstring_fields)
  = Some [ {[ "name" := VStr "E"; "unit" := VStr "V";
              "reference" := VStr "RHE" ]};
           {[ "name" := VStr "j"; "unit" := VStr "uA / cm2" ]};
           create_field "t" ].
Proof. vm_compute. reflexivity. Qed.

Example data_docstring :
  readlines (data (init "a,b
0,0
1,1" None None)) = ["0,0
"; "1,1"].
Proof. reflexivity. Qed.

(** ** Field reconciliation *)

(** C1. The reconciled schema is the supplied entries whose name is a column
    name, in their order, followed by a generated field for every column
    without one. The call does not deliver this for the file with the
    columns [any] and [E] and a supplied list of one named entry followed
    by two entries without a name: the first loop removes the first of the
    two and its iterator steps over the second, which has neither name nor
    type and so goes by the name [any]; the second loop keeps it as the
    field of column [any], and the call hands back the named entry and that
    nameless entry and generates nothing for the column [any]. *)
Theorem fields_diverges_after_adjacent_nameless :
  @read_csv demo any_E_text 0 = Ok (mkTable ["any"; "E"] [])
  ∧ @fields_result demo (init any_E_text None (Some supplied_at))
      (world_with named_then_two_nameless)
    = Some [ {[ "name" := VStr "E"; "unit" := VStr "V" ]};
             {[ "baz" := VStr "qux" ]} ]
  ∧ reconciled_spec ["any"; "E"] named_then_two_nameless
    = [ {[ "name" := VStr "E"; "unit" := VStr "V" ]}; create_field "any" ].
Proof. repeat split; vm_compute; reflexivity. Qed.

(** X1. Away from that case the call does deliver the reconciled schema of
    the specification for the [Field] copies of the supplied entries (the
    copies whose name is a column, in their order, then a generated field
    for every column none of them names, in column order): for distinct
    column names, and a supplied list in which every entry has a name or
    goes, for want of one, by a name that is no column. *)
Theorem fields_reconciled `{Externals} (self : CSVpackager) (t : Table)
    (w : world) :
  read_csv (file self) (header_lines self) = Ok t →
  fields_ref_ok self w →
  NoDup (columns t) →
  Forall (λ f, default_name_free (columns t) f) (supplied_fields self w) →
  ∃ l w',
    fields self w = (Ok l, w')
    ∧ heap w' !! l
      = Some (reconciled_spec (columns t)
                (Field_init <$> supplied_fields self w)).
Proof.
  intros Hparse Hok Hnd Hfree.
  destruct (fields_run self t Hparse w Hok) as [k Hrun].
  eexists _, _. split; [exact Hrun|]. cbn [heap].
  rewrite lookup_insert_eq. f_equal. by apply fields_output_reconciled.
Qed.

Lemma fields_reconciled_witness :
  ∃ l w',
    @fields demo (init tEj_text None (Some supplied_at))
      (world_with docstring_fields) = (Ok l, w')
    ∧ heap w' !! l
      = Some (reconciled_spec (columns (mkTable ["t"; "E"; "j"] []))
                (Field_init <$>
                   supplied_fields (init tEj_text None (Some supplied_at))
                     (world_with docstring_fields))).
Proof.
  apply (fields_reconciled (H := demo)
           (init tEj_text None (Some supplied_at))
           (mkTable ["t"; "E"; "j"] []) (world_with docstring_fields)).
  - reflexivity.
  - vm_compute. eauto.
  - apply (bool_decide_unpack _). vm_compute. exact I.
  - apply (bool_decide_unpack _). vm_compute. exact I.
Defined.

(** C2. An entry without a [name] key never reaches the result. The call
    breaks this for two such entries next to each other when a column is
    called [any]: the second one is stepped over by the first loop, goes by
    the name [any] for want of name and type, and is handed back. *)
Theorem nameless_entry_after_nameless_survives :
  ∃ out,
    @fields_result demo (init any_b_text None (Some supplied_at))
      (world_with two_nameless) = Some out
    ∧ ({[ "baz" := VStr "qux" ]} : Field) ∈ out
    ∧ ({[ "baz" := VStr "qux" ]} : Field) !! "name" = None.
Proof.
  exists [ {[ "baz" := VStr "qux" ]}; create_field "b" ].
  split; [vm_compute; reflexivity|]. split; [by left|reflexivity].
Qed.

(** X2. Away from that case no entry without a name is handed back: when
    every supplied entry has a name or goes, for want of one, by a name that
    is no column, every field of the result has a name. *)
Theorem fields_result_named `{Externals} (self : CSVpackager) (t : Table)
    (w : world) :
  read_csv (file self) (header_lines self) = Ok t →
  fields_ref_ok self w →
  Forall (λ f, default_name_free (columns t) f) (supplied_fields self w) →
  ∃ l w' out,
    fields self w = (Ok l, w')
    ∧ heap w' !! l = Some out
    ∧ Forall (λ f, has_name f) out.
Proof.
  intros Hparse Hok Hfree.
  destruct (fields_run self t Hparse w Hok) as [k Hrun].
  eexists _, _, _. split; [exact Hrun|]. cbn [heap].
  split; [apply lookup_insert_eq|]. by apply fields_output_named.
Qed.

Lemma fields_result_named_witness :
  ∃ l w' out,
    @fields demo (init tEj_text None (Some supplied_at))
      (world_with two_nameless) = (Ok l, w')
    ∧ heap w' !! l = Some out
    ∧ Forall (λ f, has_name f) out.
Proof.
  apply (fields_result_named (H := demo)
           (init tEj_text None (Some supplied_at))
           (mkTable ["t"; "E"; "j"] []) (world_with two_nameless)).
  - reflexivity.
  - vm_compute. eauto.
  - apply (bool_decide_unpack _). vm_compute. exact I.
Defined.

(** C3. Without a supplied list the call hands back one field per column
    name, in column order, each the mapping of [name] to the column name and
    of [comment] to the generated marker, and nothing else; nothing is
    logged. *)
Theorem fields_generated_without_list `{Externals} (self : CSVpackager)
    (t : Table) (w : world) :
  read_csv (file self) (header_lines self) = Ok t →
  _fields self = None →
  ∃ l w',
    fields self w = (Ok l, w')
    ∧ heap w' !! l
      = Some ((λ c, {[ "name" := VStr c;
                       "comment" := VStr "Created by echemdb-converters." ]})
                <$> columns t)
    ∧ log w' = log w.
Proof.
  intros Hparse Hnone. unfold fields. rewrite Hnone.
  erewrite bind_ok by reflexivity. cbv beta iota.
  rewrite (create_fields_run self t Hparse w).
  eexists _, _. split; [done|]. cbn [heap log]. by rewrite lookup_insert_eq.
Qed.

Lemma fields_generated_without_list_witness :
  ∃ l w',
    @fields demo (init tEj_text None None) empty_world = (Ok l, w')
    ∧ heap w' !! l
      = Some ((λ c, {[ "name" := VStr c;
                       "comment" := VStr "Created by echemdb-converters." ]})
                <$> columns (mkTable ["t"; "E"; "j"] []))
    ∧ log w' = log empty_world.
Proof.
  apply (fields_generated_without_list (H := demo) (init tEj_text None None)
           (mkTable ["t"; "E"; "j"] []) empty_world); reflexivity.
Defined.

(** C4, as the code has it: field reconciliation never raises. For every
    supplied list and every table that parsed, the call returns a list
    normally, and all it reports are warnings appended to the log: one for
    every nameless entry the first loop removes and one for every generated
    field. An entry dropped because its name is no column is not reported
    at all. *)
Theorem fields_never_raises `{Externals} (self : CSVpackager) (t : Table)
    (w : world) :
  read_csv (file self) (header_lines self) = Ok t →
  fields_ref_ok self w →
  ∃ l w' out,
    fields self w = (Ok l, w')
    ∧ heap w' !! l = Some out
    ∧ log w' = log w ++ warnings_logged (columns t) (supplied_fields self w).
Proof.
  intros Hparse Hok.
  destruct (fields_run self t Hparse w Hok) as [k Hrun].
  eexists _, _, _. split; [exact Hrun|]. cbn [heap log].
  split; [apply lookup_insert_eq|done].
Qed.

Lemma fields_never_raises_witness :
  ∃ l w' out,
    @fields demo (init field_b_text None (Some supplied_at))
      (world_with two_nameless) = (Ok l, w')
    ∧ heap w' !! l = Some out
    ∧ log w' = log (world_with two_nameless)
               ++ warnings_logged (columns (mkTable ["field"; "b"] []))
                    (supplied_fields
                       (init field_b_text None (Some supplied_at))
                       (world_with two_nameless)).
Proof.
  apply (fields_never_raises (H := demo)
           (init field_b_text None (Some supplied_at))
           (mkTable ["field"; "b"] []) (world_with two_nameless)).
  - reflexivity.
  - vm_compute. eauto.
Defined.

(** C4 as stated fails in its last part: not every anomaly is reported. For
    the file with the one column [a] and the supplied entries named [a] and
    [x], the stale entry [x] is dropped and the log stays empty. *)
Lemma stale_entry_dropped_silently :
  ∃ l w',
    @fields demo (init a_text None (Some supplied_at))
      (world_with named_and_stale) = (Ok l, w')
    ∧ heap w' !! l = Some [ {[ "name" := VStr "a" ]} ]
    ∧ ({[ "name" := VStr "x" ]} : Field) ∈ named_and_stale
    ∧ log w' = [].
Proof.
  eexists _, _. split; [vm_compute; reflexivity|].
  split; [vm_compute; reflexivity|]. split; [|reflexivity].
  right. by left.
Qed.

(** C5. Asking for the schema twice in a row yields the same list both
    times, and neither call changes the list object stored in the instance
    (nor any other list object that existed before the call, the result of
    the first call included). *)
Theorem fields_twice_same_schema `{Externals} (self : CSVpackager)
    (t : Table) (w : world) :
  read_csv (file self) (header_lines self) = Ok t →
  fields_ref_ok self w →
  ∃ l1 w1 l2 w2 out,
    fields self w = (Ok l1, w1)
    ∧ fields self w1 = (Ok l2, w2)
    ∧ heap w1 !! l1 = Some out
    ∧ heap w2 !! l2 = Some out
    ∧ heap w2 !! l1 = Some out
    ∧ supplied_fields self w1 = supplied_fields self w
    ∧ supplied_fields self w2 = supplied_fields self w
    ∧ ∀ l, is_Some (heap w !! l) →
           heap w1 !! l = heap w !! l ∧ heap w2 !! l = heap w !! l.
Proof.
  intros Hparse Hok.
  destruct (fields_run self t Hparse w Hok) as [k1 Hrun1].
  set (l1 := fresh (dom (heap w))) in *.
  set (out := fields_output (columns t) (supplied_fields self w)) in *.
  set (w1 := mkWorld (<[l1:=out]> (heap w)) _ _) in Hrun1.
  assert (heap w !! l1 = None) as Hfresh1 by apply fresh_not_allocated.
  assert (∀ l, is_Some (heap w !! l) → heap w1 !! l = heap w !! l) as Hframe1.
  { intros l [xs Hxs]. cbn [w1 heap]. apply lookup_insert_ne. congruence. }
  assert (fields_ref_ok self w1) as Hok1.
  { unfold fields_ref_ok in *. destruct (_fields self) as [l|]; [|done].
    by rewrite Hframe1. }
  assert (supplied_fields self w1 = supplied_fields self w) as Hsup1.
  { unfold supplied_fields, fields_ref_ok in *.
    destruct (_fields self) as [l|]; [|done]. by rewrite Hframe1. }
  destruct (fields_run self t Hparse w1 Hok1) as [k2 Hrun2].
  set (l2 := fresh (dom (heap w1))) in *.
  rewrite Hsup1 in Hrun2. fold out in Hrun2.
  set (w2 := mkWorld (<[l2:=out]> (heap w1)) _ _) in Hrun2.
  assert (heap w1 !! l2 = None) as Hfresh2 by apply fresh_not_allocated.
  assert (heap w1 !! l1 = Some out) as Hl1 by apply lookup_insert_eq.
  assert (∀ l, is_Some (heap w1 !! l) → heap w2 !! l = heap w1 !! l)
    as Hframe2.
  { intros l [xs Hxs]. cbn [w2 heap]. apply lookup_insert_ne. congruence. }
  exists l1, w1, l2, w2, out.
  split; [exact Hrun1|]. split; [exact Hrun2|]. split; [exact Hl1|].
  split; [apply lookup_insert_eq|].
  split; [by rewrite Hframe2|].
  split; [exact Hsup1|]. split.
  - unfold supplied_fields, fields_ref_ok in *.
    destruct (_fields self) as [l|]; [|done].
    rewrite Hframe2 by (by rewrite Hframe1). by rewrite Hframe1.
  - intros l Hl. split; [by apply Hframe1|].
    rewrite Hframe2 by (by rewrite Hframe1). by apply Hframe1.
Qed.

Lemma fields_twice_same_schema_witness :
  ∃ l1 w1 l2 w2 out,
    @fields demo (init tEj_text None (Some supplied_at))
      (world_with docstring_fields) = (Ok l1, w1)
    ∧ @fields demo (init tEj_text None (Some supplied_at)) w1 = (Ok l2, w2)
    ∧ heap w1 !! l1 = Some out
    ∧ heap w2 !! l2 = Some out
    ∧ heap w2 !! l1 = Some out
    ∧ supplied_fields (init tEj_text None (Some supplied_at)) w1
      = supplied_fields (init tEj_text None (Some supplied_at))
          (world_with docstring_fields)
    ∧ supplied_fields (init tEj_text None (Some supplied_at)) w2
      = supplied_fields (init tEj_text None (Some supplied_at))
          (world_with docstring_fields)
    ∧ ∀ l, is_Some (heap (world_with docstring_fields) !! l) →
           heap w1 !! l = heap (world_with docstring_fields) !! l
           ∧ heap w2 !! l = heap (world_with docstring_fields) !! l.
Proof.
  apply (fields_twice_same_schema (H := demo)
           (init tEj_text None (Some supplied_at))
           (mkTable ["t"; "E"; "j"] []) (world_with docstring_fields)).
  - reflexivity.
  - vm_compute. eauto.
Defined.

(** C10. A supplied list that is empty is treated like no list at all: the
    call does exactly what it does for the same instance without a list, and
    hands back the generated field of every column. *)
Theorem fields_empty_list_like_none `{Externals} (text : string)
    (md : gmap string value) (l : loc) (dev : option device_config)
    (t : Table) (w : world) :
  heap w !! l = Some [] →
  read_csv text (header_lines (mkCSVpackager text md None dev)) = Ok t →
  fields (mkCSVpackager text md (Some l) dev) w
  = fields (mkCSVpackager text md None dev) w
  ∧ ∃ l' w',
      fields (mkCSVpackager text md (Some l) dev) w = (Ok l', w')
      ∧ heap w' !! l' = Some (create_field <$> columns t)
      ∧ log w' = log w.
Proof.
  intros Hl Hparse.
  assert (fields (mkCSVpackager text md (Some l) dev) w
          = create_fields (mkCSVpackager text md None dev) w) as Heq.
  { unfold fields. cbn [_fields].
    by step_with (load_ok _ _ _ Hl). }
  split.
  - rewrite Heq. unfold fields. cbn [_fields].
    by erewrite bind_ok by reflexivity.
  - rewrite Heq.
    rewrite (create_fields_run (mkCSVpackager text md None dev) t Hparse w).
    eexists _, _. split; [done|]. cbn [heap log].
    by rewrite lookup_insert_eq.
Qed.

Lemma fields_empty_list_like_none_witness :
  @fields demo (mkCSVpackager tEj_text ∅ (Some supplied_at) None)
    (world_with [])
  = @fields demo (mkCSVpackager tEj_text ∅ None None) (world_with [])
  ∧ ∃ l' w',
      @fields demo (mkCSVpackager tEj_text ∅ (Some supplied_at) None)
        (world_with []) = (Ok l', w')
      ∧ heap w' !! l'
        = Some (create_field <$> columns (mkTable ["t"; "E"; "j"] []))
      ∧ log w' = log (world_with []).
Proof.
  apply (fields_empty_list_like_none (H := demo) tEj_text ∅ supplied_at None
           (mkTable ["t"; "E"; "j"] []) (world_with [])); reflexivity.
Defined.

(** ** Decimal separator, device lookup, delimiter *)

(** C6. On the generic packager the decimal separator fails with
    [NotImplementedError] whatever the file holds; on a device variant that
    declares a literal separator it is that literal, whatever the file
    holds. *)
Theorem decimal_generic_fails_device_literal (text : string)
    (md : gmap string value) (fs : option loc) :
  decimal (init text (Some md) fs) = Raise NotImplementedError
  ∧ decimal (mkCSVpackager text md fs None) = Raise NotImplementedError
  ∧ ∀ cfg, decimal (mkCSVpackager text md fs (Some cfg))
           = Ok (cfg_decimal cfg).
Proof. done. Qed.

(** C7. The lookup of a device identifier that is registered returns its
    packager class; for every other identifier it fails with a [KeyError]
    whose message contains the identifier. *)
Theorem get_packager_registry (device : string) :
  match registry !! device with
  | Some cls => get_packager (Some device) = Ok cls
  | None =>
      ∃ msg, get_packager (Some device) = Raise (KeyError msg)
             ∧ occurs_in device msg
  end.
Proof.
  unfold registry, get_packager.
  destruct (decide (device = "eclab")) as [->|Hne].
  - by rewrite lookup_singleton_eq, decide_True.
  - rewrite lookup_singleton_ne by done.
    rewrite decide_False by congruence.
    eexists. split; [done|].
    by exists "Device wth name '", "' is unknown to the packager'.".
Qed.

Lemma after_lines_after_line (n : nat) (s : string) :
  after_lines n (after_line s) = after_line (after_lines n s).
Proof.
  revert s. induction n as [|n IH]; intros s; [done|].
  simpl. by rewrite IH.
Qed.

(** C8. The delimiter is what the sniffer makes of the first two characters
    of the data block, the text after the header lines and after the line
    of the column names, for every text. *)
Theorem delimiter_sniffs_head_of_data_block `{Externals}
    (self : CSVpackager) :
  delimiter self
  = sniff_delimiter
      (String.substring 0 2
         (after_line (after_lines (header_lines self) (file self)))).
Proof.
  unfold delimiter. rewrite data_after_lines. simpl after_lines.
  by rewrite after_lines_after_line.
Qed.

(** ** The table *)

(** C9, as the code has it: there is no cache. Every access to the table
    calls the parser on the stored text; as the text and the header offset
    never change, every access yields an equal table. *)
Theorem df_parses_at_every_access `{Externals} (self : CSVpackager)
    (t : Table) (n : nat) (w : world) :
  read_csv (file self) (header_lines self) = Ok t →
  access_df n self w
  = (Ok (replicate n t), mkWorld (heap w) (log w) (parses w + n))
  ∧ column_names self w
    = (Ok (columns t), mkWorld (heap w) (log w) (S (parses w))).
Proof.
  intros Hparse. split; [|by apply column_names_ok].
  revert w. induction n as [|n IH]; intros w.
  - simpl. unfold mret, M_ret. by rewrite Nat.add_0_r, world_eta.
  - simpl access_df. step_with (df_ok self t Hparse w).
    step_with (IH _). unfold mret, M_ret.
    cbn [heap log parses]. simpl replicate. do 2 f_equal. lia.
Qed.

Lemma df_parses_at_every_access_witness :
  @access_df demo 3 (init tEj_text None None) empty_world
  = (Ok (replicate 3 (mkTable ["t"; "E"; "j"] [])),
     mkWorld (heap empty_world) (log empty_world) (parses empty_world + 3))
  ∧ @column_names demo (init tEj_text None None) empty_world
    = (Ok (columns (mkTable ["t"; "E"; "j"] [])),
       mkWorld (heap empty_world) (log empty_world)
         (S (parses empty_world))).
Proof.
  apply (df_parses_at_every_access (H := demo) (init tEj_text None None)
           (mkTable ["t"; "E"; "j"] []) 3 empty_world).
  reflexivity.
Defined.

(** C9 as stated fails: two accesses to the table are two runs of the
    parser, not at most one. *)
Lemma df_second_access_parses_again :
  ¬ (parses (snd (@access_df demo 2 (init tEj_text None None) empty_world))
     ≤ parses empty_world + 1)%nat.
Proof. vm_compute. lia. Qed.

(** ** More on the reconciled list *)

(** The third loop appends generated fields, for columns in column order. *)
Lemma after_add_missing_generated (cols : list string) :
  ∀ xs : list Field,
    ∃ gen, after_add_missing cols xs = xs ++ (create_field <$> gen)
           ∧ gen `sublist_of` cols.
Proof.
  induction cols as [|c cols IH]; intros xs.
  - exists []. simpl. by rewrite app_nil_r.
  - simpl. destruct (bool_decide (VStr c ∈ Field_name <$> xs)).
    + destruct (IH xs) as (gen & -> & Hsub).
      exists gen. split; [done|]. by apply sublist_cons.
    + destruct (IH (xs ++ [create_field c])) as (gen & -> & Hsub).
      exists (c :: gen). split; [by rewrite <- app_assoc|].
      by apply sublist_skip.
Qed.

Lemma after_add_missing_covers (cols : list string) :
  ∀ (xs : list Field) (c : string),
    c ∈ cols ∨ VStr c ∈ Field_name <$> xs →
    VStr c ∈ Field_name <$> after_add_missing cols xs.
Proof.
  induction cols as [|c0 cols IH]; intros xs c Hc.
  - destruct Hc as [Hc|Hc]; [by apply elem_of_nil in Hc|done].
  - simpl.
    destruct (bool_decide (VStr c0 ∈ Field_name <$> xs)) eqn:Hin.
    + apply bool_decide_eq_true in Hin. apply IH.
      destruct Hc as [Hc|Hc]; [|by right].
      apply elem_of_cons in Hc as [->|Hc]; [by right|by left].
    + apply IH. destruct Hc as [Hc|Hc].
      * apply elem_of_cons in Hc as [->|Hc]; [|by left].
        right. rewrite fmap_app, elem_of_app. right. simpl.
        rewrite create_field_name. by left.
      * right. rewrite fmap_app, elem_of_app. by left.
Qed.

Lemma after_add_missing_NoDup (cols : list string) :
  ∀ xs : list Field,
    NoDup (Field_name <$> xs) →
    NoDup (Field_name <$> after_add_missing cols xs).
Proof.
  induction cols as [|c cols IH]; intros xs Hnd; [done|].
  simpl. destruct (bool_decide (VStr c ∈ Field_name <$> xs)) eqn:Hin.
  - by apply IH.
  - apply bool_decide_eq_false in Hin. apply IH.
    rewrite fmap_app. apply NoDup_app. split; [done|]. split.
    + intros v Hv Hv'. simpl in Hv'. rewrite create_field_name in Hv'.
      apply list_elem_of_singleton in Hv' as ->. done.
    + simpl. apply NoDup_singleton.
Qed.

Lemma after_add_missing_complete (cols : list string) (xs : list Field) :
  (∀ c, c ∈ cols → VStr c ∈ Field_name <$> xs) →
  after_add_missing cols xs = xs.
Proof.
  induction cols as [|c cols IH]; intros Hall; [done|].
  simpl. rewrite bool_decide_eq_true_2 by (apply Hall; by left).
  apply IH. intros c' Hc'. apply Hall. by right.
Qed.

(** The result as a whole: [Field] copies of supplied entries, in their
    order, then generated fields for columns, in column order. *)
Lemma reconcile_origin (cols : list string) (xs : list Field) :
  ∃ kept gen,
    reconcile cols xs = kept ++ (create_field <$> gen)
    ∧ kept `sublist_of` xs
    ∧ gen `sublist_of` cols.
Proof.
  unfold reconcile.
  destruct (after_add_missing_generated cols
              (after_drop_stale cols (after_drop_nameless xs)))
    as (gen & -> & Hgen).
  eexists _, gen. split; [done|]. split; [|done].
  etrans; [apply sublist_filter|]. apply nameless_pass_sublist.
Qed.

Lemma fields_output_origin (cols : list string) (supplied : list Field) :
  ∃ kept gen,
    fields_output cols supplied = kept ++ (create_field <$> gen)
    ∧ kept `sublist_of` (Field_init <$> supplied)
    ∧ gen `sublist_of` cols.
Proof.
  unfold fields_output. destruct supplied as [|x xs].
  - exists [], cols. by split.
  - apply reconcile_origin.
Qed.

Lemma fields_output_covers (cols : list string) (supplied : list Field)
    (c : string) :
  c ∈ cols → VStr c ∈ Field_name <$> fields_output cols supplied.
Proof.
  intros Hc. unfold fields_output. destruct supplied as [|x xs].
  - rewrite <- list_fmap_compose. apply list_elem_of_fmap.
    exists c. split; [|done]. simpl. by rewrite create_field_name.
  - apply after_add_missing_covers. by left.
Qed.

Lemma reconcile_names_columns (cols : list string) (xs : list Field) :
  Forall (λ f, name_in_columns (Field_name f) cols) (reconcile cols xs).
Proof.
  unfold reconcile.
  destruct (after_add_missing_generated cols
              (after_drop_stale cols (after_drop_nameless xs)))
    as (gen & -> & Hgen).
  apply Forall_app. split.
  - apply Forall_forall. intros f Hf. unfold after_drop_stale in Hf.
    by apply list_elem_of_filter in Hf as [Hf _].
  - apply Forall_fmap, Forall_forall. intros c Hc. simpl.
    rewrite create_field_name. unfold name_in_columns.
    apply bool_decide_pack, list_elem_of_fmap_2.
    by eapply elem_of_sublist.
Qed.

Lemma fields_output_names_columns (cols : list string)
    (supplied : list Field) :
  Forall (λ f, name_in_columns (Field_name f) cols)
    (fields_output cols supplied).
Proof.
  unfold fields_output. destruct supplied as [|x xs].
  - apply Forall_fmap, Forall_forall. intros c Hc. simpl.
    rewrite create_field_name. unfold name_in_columns.
    by apply bool_decide_pack, list_elem_of_fmap_2.
  - apply reconcile_names_columns.
Qed.

Lemma fields_output_NoDup (cols : list string) (supplied : list Field) :
  NoDup cols →
  NoDup (Field_name <$> supplied) →
  NoDup (Field_name <$> fields_output cols supplied).
Proof.
  intros Hcols Hsup. unfold fields_output. destruct supplied as [|x xs].
  - rewrite <- list_fmap_compose. apply NoDup_fmap_2_strong; [|done].
    intros c1 c2 _ _. simpl. rewrite !create_field_name. by intros [= ->].
  - apply after_add_missing_NoDup.
    rewrite <- Field_init_names in Hsup.
    eapply sublist_NoDup; [exact Hsup|]. apply fmap_sublist.
    etrans; [apply sublist_filter|]. apply nameless_pass_sublist.
Qed.

Lemma filter_none {A} (P : A → Prop) `{!∀ x, Decision (P x)} (l : list A) :
  (∀ x, x ∈ l → ¬ P x) → filter P l = [].
Proof.
  induction l as [|a l IH]; intros HP; [done|].
  rewrite filter_cons_False by (apply HP; by left).
  apply IH. intros x Hx. apply HP. by right.
Qed.

(** A list that names only columns and names every column goes through the
    loops as it is, and nothing is logged. *)
Lemma reconcile_complete (cols : list string) (xs : list Field) :
  Forall (λ f, named_in cols f) xs →
  (∀ c, c ∈ cols → VStr c ∈ Field_name <$> xs) →
  reconcile cols xs = xs ∧ reconcile_warnings cols xs = [].
Proof.
  intros Hnamed Hall.
  assert (Forall (λ f, has_name f) xs) as Hhas.
  { eapply Forall_impl; [exact Hnamed|]. apply named_in_has_name. }
  assert (after_drop_nameless xs = xs) as Hpass
      by (by apply nameless_pass_named).
  assert (after_drop_stale cols xs = xs) as Hstale.
  { apply filter_all. intros f Hf. rewrite Forall_forall in Hnamed, Hhas.
    rewrite name_in_columns_named; [by apply Hnamed|].
    by apply default_name_free_named, Hhas. }
  unfold reconcile_warnings, reconcile. rewrite Hpass, Hstale.
  rewrite after_add_missing_complete by done.
  by rewrite !Nat.sub_diag.
Qed.

Lemma fields_output_complete (cols : list string) (supplied : list Field) :
  Forall (λ f, named_in cols f) supplied →
  (∀ c, c ∈ cols → VStr c ∈ Field_name <$> supplied) →
  fields_output cols supplied = Field_init <$> supplied
  ∧ warnings_logged cols supplied = [].
Proof.
  intros Hnamed Hall. unfold fields_output, warnings_logged.
  destruct supplied as [|x xs].
  - destruct cols as [|c cols]; [done|].
    specialize (Hall c (list_elem_of_here _ _)). by apply elem_of_nil in Hall.
  - apply reconcile_complete.
    + apply Forall_fmap. eapply Forall_impl; [exact Hnamed|].
      intros f Hf. simpl. by rewrite Field_init_named_in.
    + by rewrite Field_init_names.
Qed.

(** The first loop on a list without two nameless entries in a row: the
    entry stepped over after a removal has a name, so the loop removes
    exactly the nameless entries. *)
Lemma nameless_pass_spaced (fuel : nat) :
  ∀ pre suf : list Field,
    Forall (λ f, has_name f) pre →
    no_adjacent_nameless suf →
    length suf < fuel →
    nameless_pass fuel (length pre) (pre ++ suf)
    = pre ++ filter (λ f, has_name f) suf.
Proof.
  induction fuel as [|fuel IH]; intros pre suf Hpre Hsuf Hfuel; [lia|].
  rewrite nameless_pass_S.
  destruct suf as [|x suf].
  - rewrite app_nil_r, lookup_ge_None_2 by done. by rewrite app_nil_r.
  - rewrite list_lookup_middle by done.
    destruct (has_name x) eqn:Hx.
    + replace (pre ++ x :: suf) with ((pre ++ [x]) ++ suf)
        by (by rewrite <- app_assoc).
      replace (S (length pre)) with (length (pre ++ [x]))
        by (rewrite length_app; simpl; lia).
      rewrite IH.
      * rewrite filter_cons_True by (by rewrite Hx).
        by rewrite <- app_assoc.
      * apply Forall_app. split; [done|]. apply Forall_singleton.
        by rewrite Hx.
      * simpl in Hsuf. destruct suf; [done|].
        by apply andb_prop_elim in Hsuf as [_ ?].
      * simpl in Hfuel. lia.
    + rewrite remove_first_middle; last first.
      { intros Hin. rewrite Forall_forall in Hpre.
        specialize (Hpre x Hin). by rewrite Hx in Hpre. }
      simpl default.
      rewrite filter_cons_False by (rewrite Hx; by intros []).
      destruct suf as [|y suf].
      * rewrite filter_nil. destruct fuel as [|fuel]; [done|].
        by rewrite nameless_pass_S, app_nil_r, lookup_ge_None_2 by lia.
      * simpl in Hsuf. apply andb_prop_elim in Hsuf as [Hxy Hsuf].
        rewrite Hx in Hxy. simpl in Hxy.
        replace (pre ++ y :: suf) with ((pre ++ [y]) ++ suf)
          by (by rewrite <- app_assoc).
        replace (S (length pre)) with (length (pre ++ [y]))
          by (rewrite length_app; simpl; lia).
        rewrite IH.
        -- rewrite filter_cons_True by done. by rewrite <- app_assoc.
        -- apply Forall_app. split; [done|]. by apply Forall_singleton.
        -- destruct suf as [|z suf]; [done|].
           by apply andb_prop_elim in Hsuf as [_ ?].
        -- simpl in Hfuel. lia.
Qed.

Lemma no_adjacent_nameless_copies (xs : list Field) :
  no_adjacent_nameless (Field_init <$> xs) = no_adjacent_nameless xs.
Proof.
  induction xs as [|x xs IH]; [done|].
  destruct xs as [|y xs]; [done|].
  change (no_adjacent_nameless (Field_init <$> x :: y :: xs))
    with ((has_name (Field_init x) || has_name (Field_init y))
          && no_adjacent_nameless (Field_init <$> y :: xs)).
  rewrite IH, !Field_init_has_name. done.
Qed.

Lemma reconcile_spaced (cols : list string) (xs : list Field) :
  NoDup cols →
  no_adjacent_nameless xs →
  reconcile cols xs = reconciled_spec cols xs.
Proof.
  intros Hnd Hspaced. unfold reconcile, reconciled_spec.
  rewrite after_add_missing_spec by done.
  assert (after_drop_stale cols (after_drop_nameless xs)
          = filter (λ f, named_in cols f) xs) as ->; [|done].
  unfold after_drop_stale, after_drop_nameless.
  pose proof (nameless_pass_spaced (S (length xs)) [] xs
                (Forall_nil_2 _) Hspaced (Nat.lt_succ_diag_r _)) as Hpass.
  change (nameless_pass (S (length xs)) 0 xs
          = filter (λ f, has_name f) xs) in Hpass.
  rewrite Hpass.
  rewrite list_filter_filter. apply list_filter_iff.
  intros f. split.
  - intros [Hcol Hname]. rewrite name_in_columns_named in Hcol; [done|].
    by apply default_name_free_named.
  - intros Hnamed. pose proof (named_in_has_name cols f Hnamed) as Hname.
    split; [|done]. rewrite name_in_columns_named; [done|].
    by apply default_name_free_named.
Qed.

Lemma fields_output_spaced (cols : list string) (supplied : list Field) :
  NoDup cols →
  no_adjacent_nameless supplied →
  fields_output cols supplied
  = reconciled_spec cols (Field_init <$> supplied).
Proof.
  intros Hnd Hspaced. unfold fields_output.
  destruct supplied as [|x xs].
  - unfold reconciled_spec. rewrite fmap_nil, filter_nil. simpl. f_equal.
    symmetry. apply filter_all. intros c _. apply not_elem_of_nil.
  - apply reconcile_spaced; [done|]. by rewrite no_adjacent_nameless_copies.
Qed.

(** When no supplied entry goes by the name of a column, the result is the
    generated field of every column. *)
Lemma fields_output_all_stale (cols : list string) (supplied : list Field) :
  NoDup cols →
  Forall (λ f, name_in_columns (Field_name f) cols = false) supplied →
  fields_output cols supplied = create_field <$> cols.
Proof.
  intros Hnd Hstale. unfold fields_output.
  destruct supplied as [|x xs]; [done|].
  set (sup := Field_init <$> x :: xs). unfold reconcile.
  rewrite after_add_missing_spec by done.
  assert (after_drop_stale cols (after_drop_nameless sup) = []) as ->.
  { apply filter_none. intros f Hf Hin.
    assert (f ∈ sup) as Hsup.
    { eapply elem_of_sublist; [exact Hf|]. apply nameless_pass_sublist. }
    apply list_elem_of_fmap in Hsup as (g & -> & Hg).
    rewrite Forall_forall in Hstale. rewrite Field_init_name in Hin.
    rewrite (Hstale g Hg) in Hin. done. }
  simpl. f_equal. apply filter_all. intros c _. apply not_elem_of_nil.
Qed.

Lemma fmap_fixed {A} (f : A → A) (l : list A) :
  Forall (λ x, f x = x) l → f <$> l = l.
Proof.
  induction 1 as [|x l Hx _ IH]; [done|]. by rewrite fmap_cons, Hx, IH.
Qed.

(** Reconciling a reconciled list again changes nothing, when the result
    holds no nameless entry and no supplied entry carries a deprecated
    format. *)
Lemma fields_output_again (cols : list string) (supplied : list Field) :
  Forall (λ f, default_name_free cols f) supplied →
  Forall (λ f, Field_init f = f) supplied →
  fields_output cols (fields_output cols supplied)
  = fields_output cols supplied
  ∧ warnings_logged cols (fields_output cols supplied) = [].
Proof.
  intros Hfree Hplain.
  assert (Field_init <$> fields_output cols supplied
          = fields_output cols supplied) as Hfix.
  { apply fmap_fixed.
    destruct (fields_output_origin cols supplied)
      as (kept & gen & -> & Hkept & _).
    apply Forall_app. split.
    - apply Forall_forall. intros f Hf.
      assert (f ∈ Field_init <$> supplied) as Hin
          by (by eapply elem_of_sublist).
      apply list_elem_of_fmap in Hin as (g & -> & Hg).
      rewrite Forall_forall in Hplain. by rewrite !(Hplain g Hg).
    - apply Forall_fmap, Forall_forall. intros c _. simpl.
      apply Field_init_create_field. }
  destruct (fields_output_complete cols (fields_output cols supplied))
    as [Heq Hwarn].
  - apply Forall_forall. intros f Hf.
    pose proof (fields_output_names_columns cols supplied) as Hcols.
    pose proof (fields_output_named cols supplied Hfree) as Hnamed.
    rewrite Forall_forall in Hcols, Hnamed.
    specialize (Hcols f Hf). specialize (Hnamed f Hf).
    rewrite (name_in_columns_named cols f) in Hcols; [done|].
    by apply default_name_free_named.
  - intros c Hc. by apply fields_output_covers.
  - by rewrite Heq, Hfix.
Qed.

(** ** More on a call of [fields] *)

Lemma fields_returns `{Externals} (self : CSVpackager) (t : Table)
    (w : world) :
  read_csv (file self) (header_lines self) = Ok t →
  fields_ref_ok self w →
  ∃ l w',
    fields self w = (Ok l, w')
    ∧ heap w' !! l
      = Some (fields_output (columns t) (supplied_fields self w))
    ∧ log w' = log w ++ warnings_logged (columns t) (supplied_fields self w)
    ∧ heap w !! l = None
    ∧ ∀ l0, l0 ≠ l → heap w' !! l0 = heap w !! l0.
Proof.
  intros Hparse Hok.
  destruct (fields_run self t Hparse w Hok) as [k Hrun].
  eexists _, _. split; [exact Hrun|]. cbn [heap log].
  split; [apply lookup_insert_eq|]. split; [done|].
  split; [apply fresh_not_allocated|].
  intros l0 Hne. by apply lookup_insert_ne.
Qed.

(** X4. Every column of the table is described: for each column name the
    list handed back holds a field that goes by that name. *)
Theorem fields_cover_columns `{Externals} (self : CSVpackager) (t : Table)
    (w : world) :
  read_csv (file self) (header_lines self) = Ok t →
  fields_ref_ok self w →
  ∃ l w' out,
    fields self w = (Ok l, w')
    ∧ heap w' !! l = Some out
    ∧ ∀ c, c ∈ columns t → ∃ f, f ∈ out ∧ Field_name f = VStr c.
Proof.
  intros Hparse Hok.
  destruct (fields_returns self t w Hparse Hok) as (l & w' & Hrun & Hout & _).
  eexists _, _, _. split; [exact Hrun|]. split; [exact Hout|].
  intros c Hc.
  pose proof (fields_output_covers (columns t) (supplied_fields self w) c Hc)
    as Hin.
  apply list_elem_of_fmap in Hin as (f & Hf & Hin). by exists f.
Qed.

Lemma fields_cover_columns_witness :
  ∃ l w' out,
    @fields demo (init field_E_text None (Some supplied_at))
      (world_with named_then_two_nameless) = (Ok l, w')
    ∧ heap w' !! l = Some out
    ∧ ∀ c, c ∈ columns (mkTable ["field"; "E"] []) →
           ∃ f, f ∈ out ∧ Field_name f = VStr c.
Proof.
  apply (fields_cover_columns (H := demo)
           (init field_E_text None (Some supplied_at))
           (mkTable ["field"; "E"] []) (world_with named_then_two_nameless)).
  - reflexivity.
  - vm_compute. eauto.
Defined.

(** X5. No field for a column that does not exist is handed back: the name
    every field of the result goes by is a column name. *)
Theorem fields_names_are_columns `{Externals} (self : CSVpackager)
    (t : Table) (w : world) :
  read_csv (file self) (header_lines self) = Ok t →
  fields_ref_ok self w →
  ∃ l w' out,
    fields self w = (Ok l, w')
    ∧ heap w' !! l = Some out
    ∧ ∀ f, f ∈ out → ∃ c, c ∈ columns t ∧ Field_name f = VStr c.
Proof.
  intros Hparse Hok.
  destruct (fields_returns self t w Hparse Hok) as (l & w' & Hrun & Hout & _).
  eexists _, _, _. split; [exact Hrun|]. split; [exact Hout|].
  intros f Hf.
  pose proof (fields_output_names_columns (columns t)
                (supplied_fields self w)) as Hall.
  rewrite Forall_forall in Hall. specialize (Hall f Hf).
  unfold name_in_columns in Hall. apply bool_decide_unpack in Hall.
  apply list_elem_of_fmap in Hall as (c & Hc & Hin). by exists c.
Qed.

Lemma fields_names_are_columns_witness :
  ∃ l w' out,
    @fields demo (init tEj_text None (Some supplied_at))
      (world_with docstring_fields) = (Ok l, w')
    ∧ heap w' !! l = Some out
    ∧ ∀ f, f ∈ out →
           ∃ c, c ∈ columns (mkTable ["t"; "E"; "j"] [])
                ∧ Field_name f = VStr c.
Proof.
  apply (fields_names_are_columns (H := demo)
           (init tEj_text None (Some supplied_at))
           (mkTable ["t"; "E"; "j"] []) (world_with docstring_fields)).
  - reflexivity.
  - vm_compute. eauto.
Defined.

(** X6. The list handed back is made of [Field] copies of supplied entries
    (the entry itself, but for a deprecated [fmt:] taken out of its format),
    in their supplied order, followed by generated fields of columns, in
    column order. *)
Theorem fields_kept_then_generated `{Externals} (self : CSVpackager)
    (t : Table) (w : world) :
  read_csv (file self) (header_lines self) = Ok t →
  fields_ref_ok self w →
  ∃ l w' kept gen,
    fields self w = (Ok l, w')
    ∧ heap w' !! l = Some (kept ++ (create_field <$> gen))
    ∧ kept `sublist_of` (Field_init <$> supplied_fields self w)
    ∧ gen `sublist_of` columns t.
Proof.
  intros Hparse Hok.
  destruct (fields_returns self t w Hparse Hok) as (l & w' & Hrun & Hout & _).
  destruct (fields_output_origin (columns t) (supplied_fields self w))
    as (kept & gen & Heq & Hkept & Hgen).
  exists l, w', kept, gen. by rewrite <- Heq.
Qed.

Lemma fields_kept_then_generated_witness :
  ∃ l w' kept gen,
    @fields demo (init tEj_text None (Some supplied_at))
      (world_with docstring_fields) = (Ok l, w')
    ∧ heap w' !! l = Some (kept ++ (create_field <$> gen))
    ∧ kept `sublist_of`
        (Field_init <$> supplied_fields
                          (init tEj_text None (Some supplied_at))
                          (world_with docstring_fields))
    ∧ gen `sublist_of` columns (mkTable ["t"; "E"; "j"] []).
Proof.
  apply (fields_kept_then_generated (H := demo)
           (init tEj_text None (Some supplied_at))
           (mkTable ["t"; "E"; "j"] []) (world_with docstring_fields)).
  - reflexivity.
  - vm_compute. eauto.
Defined.

(** X7. Unique names stay unique: when the column names are distinct and
    no two supplied entries go by the same name, no two fields of the
    result go by the same name. *)
Theorem fields_unique_names `{Externals} (self : CSVpackager) (t : Table)
    (w : world) :
  read_csv (file self) (header_lines self) = Ok t →
  fields_ref_ok self w →
  NoDup (columns t) →
  NoDup (Field_name <$> supplied_fields self w) →
  ∃ l w' out,
    fields self w = (Ok l, w')
    ∧ heap w' !! l = Some out
    ∧ NoDup (Field_name <$> out).
Proof.
  intros Hparse Hok Hcols Hsup.
  destruct (fields_returns self t w Hparse Hok) as (l & w' & Hrun & Hout & _).
  eexists _, _, _. split; [exact Hrun|]. split; [exact Hout|].
  by apply fields_output_NoDup.
Qed.

Lemma fields_unique_names_witness :
  ∃ l w' out,
    @fields demo (init tEj_text None (Some supplied_at))
      (world_with docstring_fields) = (Ok l, w')
    ∧ heap w' !! l = Some out
    ∧ NoDup (Field_name <$> out).
Proof.
  apply (fields_unique_names (H := demo)
           (init tEj_text None (Some supplied_at))
           (mkTable ["t"; "E"; "j"] []) (world_with docstring_fields)).
  - reflexivity.
  - vm_compute. eauto.
  - apply (bool_decide_unpack _). vm_compute. exact I.
  - apply (bool_decide_unpack _). vm_compute. exact I.
Defined.

(** X8. A complete supplied list comes back as its [Field] copies: when
    every supplied entry carries the name of a column and every column is
    named by an entry, the call hands back the copy of every supplied entry
    (the entry itself, but for a deprecated [fmt:] taken out of its
    format), in supplied order and not in column order, and logs nothing. *)
Theorem fields_complete_list_unchanged `{Externals} (self : CSVpackager)
    (t : Table) (w : world) :
  read_csv (file self) (header_lines self) = Ok t →
  fields_ref_ok self w →
  Forall (λ f, named_in (columns t) f) (supplied_fields self w) →
  Forall (λ c, VStr c ∈ Field_name <$> supplied_fields self w) (columns t) →
  ∃ l w',
    fields self w = (Ok l, w')
    ∧ heap w' !! l = Some (Field_init <$> supplied_fields self w)
    ∧ log w' = log w.
Proof.
  intros Hparse Hok Hnamed Hall.
  destruct (fields_returns self t w Hparse Hok)
    as (l & w' & Hrun & Hout & Hlog & _).
  rewrite Forall_forall in Hall.
  destruct (fields_output_complete (columns t) (supplied_fields self w)
              Hnamed Hall) as [Heq Hwarn].
  exists l, w'. rewrite Heq in Hout. rewrite Hwarn, app_nil_r in Hlog. done.
Qed.

Lemma fields_complete_list_unchanged_witness :
  ∃ l w',
    @fields demo (init E_text None (Some supplied_at))
      (world_with deprecated_format) = (Ok l, w')
    ∧ heap w' !! l
      = Some (Field_init <$>
                supplied_fields (init E_text None (Some supplied_at))
                  (world_with deprecated_format))
    ∧ log w' = log (world_with deprecated_format).
Proof.
  apply (fields_complete_list_unchanged (H := demo)
           (init E_text None (Some supplied_at))
           (mkTable ["E"] []) (world_with deprecated_format)).
  - reflexivity.
  - vm_compute. eauto.
  - apply (bool_decide_unpack _). vm_compute. exact I.
  - apply (bool_decide_unpack _). vm_compute. exact I.
Defined.

(** X9. Nameless entries that do not follow one another are all dropped:
    for distinct column names and a supplied list in which no entry without
    a name directly follows another one, the call hands back the reconciled
    schema of the [Field] copies (the copies of the named entries whose
    name is a column, then the generated fields), whatever the columns are
    called. *)
Theorem fields_reconciled_spaced `{Externals} (self : CSVpackager)
    (t : Table) (w : world) :
  read_csv (file self) (header_lines self) = Ok t →
  fields_ref_ok self w →
  NoDup (columns t) →
  no_adjacent_nameless (supplied_fields self w) →
  ∃ l w',
    fields self w = (Ok l, w')
    ∧ heap w' !! l
      = Some (reconciled_spec (columns t)
                (Field_init <$> supplied_fields self w)).
Proof.
  intros Hparse Hok Hnd Hspaced.
  destruct (fields_returns self t w Hparse Hok) as (l & w' & Hrun & Hout & _).
  exists l, w'. split; [exact Hrun|].
  by rewrite Hout, fields_output_spaced.
Qed.

Lemma fields_reconciled_spaced_witness :
  ∃ l w',
    @fields demo (init field_E_text None (Some supplied_at))
      (world_with spaced_nameless) = (Ok l, w')
    ∧ heap w' !! l
      = Some (reconciled_spec (columns (mkTable ["field"; "E"] []))
                (Field_init <$>
                   supplied_fields (init field_E_text None (Some supplied_at))
                     (world_with spaced_nameless))).
Proof.
  apply (fields_reconciled_spaced (H := demo)
           (init field_E_text None (Some supplied_at))
           (mkTable ["field"; "E"] []) (world_with spaced_nameless)).
  - reflexivity.
  - vm_compute. eauto.
  - apply (bool_decide_unpack _). vm_compute. exact I.
  - vm_compute. exact I.
Defined.

(** X10. A supplied list of which no entry goes by the name of a column is
    as good as none: for distinct column names the call hands back the
    generated field of every column, in column order. *)
Theorem fields_all_stale_generated `{Externals} (self : CSVpackager)
    (t : Table) (w : world) :
  read_csv (file self) (header_lines self) = Ok t →
  fields_ref_ok self w →
  NoDup (columns t) →
  Forall (λ f, name_in_columns (Field_name f) (columns t) = false)
    (supplied_fields self w) →
  ∃ l w',
    fields self w = (Ok l, w')
    ∧ heap w' !! l = Some (create_field <$> columns t).
Proof.
  intros Hparse Hok Hnd Hstale.
  destruct (fields_returns self t w Hparse Hok) as (l & w' & Hrun & Hout & _).
  exists l, w'. split; [exact Hrun|].
  by rewrite Hout, fields_output_all_stale.
Qed.

Lemma fields_all_stale_generated_witness :
  ∃ l w',
    @fields demo (init tEj_text None (Some supplied_at))
      (world_with all_stale) = (Ok l, w')
    ∧ heap w' !! l
      = Some (create_field <$> columns (mkTable ["t"; "E"; "j"] [])).
Proof.
  apply (fields_all_stale_generated (H := demo)
           (init tEj_text None (Some supplied_at))
           (mkTable ["t"; "E"; "j"] []) (world_with all_stale)).
  - reflexivity.
  - vm_compute. eauto.
  - apply (bool_decide_unpack _). vm_compute. exact I.
  - apply (bool_decide_unpack _). vm_compute. exact I.
Defined.

(** X11. Reconciling again changes nothing: when every supplied entry has
    a name or goes, for want of one, by a name that is no column, and no
    supplied entry carries a format with the deprecated [fmt:], a packager
    over the same file that is handed the list of a first call as its
    supplied list hands back an equal list and logs nothing. *)
Theorem fields_again_unchanged `{Externals} (self : CSVpackager)
    (t : Table) (w : world) :
  read_csv (file self) (header_lines self) = Ok t →
  fields_ref_ok self w →
  Forall (λ f, default_name_free (columns t) f) (supplied_fields self w) →
  Forall (λ f, Field_init f = f) (supplied_fields self w) →
  ∃ l1 w1 l2 w2 out,
    fields self w = (Ok l1, w1)
    ∧ heap w1 !! l1 = Some out
    ∧ fields (with_fields self l1) w1 = (Ok l2, w2)
    ∧ heap w2 !! l2 = Some out
    ∧ log w2 = log w1.
Proof.
  intros Hparse Hok Hfree Hplain.
  destruct (fields_returns self t w Hparse Hok) as (l1 & w1 & Hrun1 & Hout1 & _).
  set (out := fields_output (columns t) (supplied_fields self w)) in *.
  assert (fields_ref_ok (with_fields self l1) w1) as Hok2.
  { unfold fields_ref_ok. cbn [with_fields _fields]. by rewrite Hout1. }
  assert (supplied_fields (with_fields self l1) w1 = out) as Hsup2.
  { unfold supplied_fields. cbn [with_fields _fields]. by rewrite Hout1. }
  destruct (fields_returns (with_fields self l1) t w1 Hparse Hok2)
    as (l2 & w2 & Hrun2 & Hout2 & Hlog2 & _).
  rewrite Hsup2 in Hout2, Hlog2.
  destruct (fields_output_again (columns t) (supplied_fields self w)
              Hfree Hplain) as [Heq Hwarn].
  fold out in Heq, Hwarn. rewrite Heq in Hout2.
  rewrite Hwarn, app_nil_r in Hlog2.
  by exists l1, w1, l2, w2, out.
Qed.

Lemma fields_again_unchanged_witness :
  ∃ l1 w1 l2 w2 out,
    @fields demo (init tEj_text None (Some supplied_at))
      (world_with docstring_fields) = (Ok l1, w1)
    ∧ heap w1 !! l1 = Some out
    ∧ @fields demo
        (with_fields (init tEj_text None (Some supplied_at)) l1) w1
      = (Ok l2, w2)
    ∧ heap w2 !! l2 = Some out
    ∧ log w2 = log w1.
Proof.
  apply (fields_again_unchanged (H := demo)
           (init tEj_text None (Some supplied_at))
           (mkTable ["t"; "E"; "j"] []) (world_with docstring_fields)).
  - reflexivity.
  - vm_compute. eauto.
  - apply (bool_decide_unpack _). vm_compute. exact I.
  - apply (bool_decide_unpack _). vm_compute. exact I.
Defined.

(** X12. The parser runs once per supplied entry and once more: a call with
    a supplied list in which every entry has a name reads the column names,
    and with them parses the file, at every round of the second loop and
    once for the third; without a supplied list it parses once. *)
Theorem fields_parser_calls `{Externals} (self : CSVpackager) (t : Table)
    (w : world) :
  read_csv (file self) (header_lines self) = Ok t →
  fields_ref_ok self w →
  Forall (λ f, has_name f) (supplied_fields self w) →
  ∃ l w',
    fields self w = (Ok l, w')
    ∧ parses w' = parses w + length (supplied_fields self w) + 1.
Proof.
  intros Hparse Hok Hnamed. unfold fields.
  step_with (supplied_load self w Hok).
  destruct (supplied_fields self w) as [|x xs] eqn:Hsup.
  - rewrite (create_fields_run self t Hparse w). eexists _, _.
    split; [done|]. cbn [parses]. simpl. lia.
  - set (l := fresh (dom (heap w))).
    assert (Forall (λ f, has_name f) (Field_init <$> x :: xs)) as Hcopies.
    { apply Forall_fmap. eapply Forall_impl; [exact Hnamed|].
      intros f Hf. simpl. by rewrite Field_init_has_name. }
    assert (length (Field_init <$> x :: xs) = length (x :: xs)) as Hlen
        by apply length_fmap.
    set (sup := Field_init <$> x :: xs) in *.
    step_with (alloc_ok sup w). fold l.
    set (w1 := mkWorld (<[l:=sup]> (heap w)) (log w) (parses w)).
    assert (heap w1 !! l = Some sup) as Hl1 by apply lookup_insert_eq.
    step_with (drop_nameless_run l sup w1 Hl1).
    set (w2 := mkWorld _ _ _).
    assert (heap w2 !! l = Some (after_drop_nameless sup)) as Hl2
        by apply lookup_insert_eq.
    step_with (drop_stale_run self t Hparse l _ w2 Hl2).
    set (w3 := mkWorld _ _ _).
    assert (heap w3 !! l
            = Some (after_drop_stale (columns t) (after_drop_nameless sup)))
      as Hl3 by apply lookup_insert_eq.
    step_with (add_missing_run self t Hparse l _ w3 Hl3).
    eexists _, _. split; [done|]. cbn [parses w3 w2 w1].
    unfold after_drop_nameless. rewrite nameless_pass_named by done. lia.
Qed.

Lemma fields_parser_calls_witness :
  ∃ l w',
    @fields demo (init tEj_text None (Some supplied_at))
      (world_with complete_fields) = (Ok l, w')
    ∧ parses w'
      = parses (world_with complete_fields)
        + length (supplied_fields (init tEj_text None (Some supplied_at))
                    (world_with complete_fields))
        + 1.
Proof.
  apply (fields_parser_calls (H := demo)
           (init tEj_text None (Some supplied_at))
           (mkTable ["t"; "E"; "j"] []) (world_with complete_fields)).
  - reflexivity.
  - vm_compute. eauto.
  - apply (bool_decide_unpack _). vm_compute. exact I.
Defined.

Lemma fields_propagates_parse_error_witness :
  ∃ w',
    @fields rejecting (init tEj_text None (Some supplied_at))
      (world_with docstring_fields) = (Raise ParserError, w').
Proof.
  apply (fields_propagates_parse_error (H := rejecting)
           (init tEj_text None (Some supplied_at)) ParserError
           (world_with docstring_fields)).
  - reflexivity.
  - vm_compute. eauto.
Defined.

(** ** Header, data block and delimiter *)

Lemma append_assoc (a b c : string) : (a +:+ b) +:+ c = a +:+ (b +:+ c).
Proof.
  induction a as [|x a IH]; [done|].
  change (String x ((a +:+ b) +:+ c) = String x (a +:+ (b +:+ c))).
  by rewrite IH.
Qed.

Lemma join_app (l1 l2 : list string) :
  join (l1 ++ l2) = join l1 +:+ join l2.
Proof.
  induction l1 as [|x l1 IH]; [done|].
  change (join ((x :: l1) ++ l2)) with (x +:+ join (l1 ++ l2)).
  change (join (x :: l1)) with (x +:+ join l1).
  by rewrite IH, append_assoc.
Qed.

Lemma readlines_after_lines (n : nat) (s : string) :
  readlines (after_lines n s) = drop n (readlines s).
Proof.
  revert s. induction n as [|n IH]; intros s; simpl; [by rewrite drop_0|].
  by rewrite IH, <- tail_readlines, drop_drop.
Qed.

Lemma mapM_lookup_seq (l : list string) (n : nat) :
  ∀ j, (j + n ≤ length l)%nat →
       mapM (λ i, l !! i) (seq j n) = Some (take n (drop j l)).
Proof.
  induction n as [|n IH]; intros j Hj; [done|].
  destruct (lookup_lt_is_Some_2 l j) as [x Hx]; [lia|].
  simpl. rewrite Hx. simpl. rewrite IH by lia. simpl.
  by rewrite (drop_S l x j Hx).
Qed.

Lemma header_Some_bound (self : CSVpackager) :
  is_Some (header self) →
  (header_lines self ≤ length (readlines (file self)))%nat.
Proof.
  unfold header. intros Hsome. apply mapM_is_Some in Hsome.
  destruct (header_lines self) as [|n]; [lia|].
  rewrite Forall_forall in Hsome.
  destruct (Hsome n) as [x Hx].
  { apply list_elem_of_lookup. exists n.
    apply (lookup_seq_lt 0 (S n) n). lia. }
  apply lookup_lt_Some in Hx. lia.
Qed.

(** X13. The header can be read exactly when the file has at least as many
    lines as the variant declares header lines; otherwise indexing the
    lines fails. *)
Theorem header_in_bounds (self : CSVpackager) :
  is_Some (header self)
  ↔ (header_lines self ≤ length (readlines (file self)))%nat.
Proof.
  split; [apply header_Some_bound|].
  intros Hle. unfold header. rewrite mapM_lookup_seq by done. by eexists.
Qed.

(** X14. When the header can be read it is the first [header_lines] lines
    of the file, and followed by the text after those lines it gives the
    file back. *)
Theorem header_then_rest (self : CSVpackager) (hs : list string) :
  header self = Some hs →
  hs = take (header_lines self) (readlines (file self))
  ∧ join hs +:+ after_lines (header_lines self) (file self) = file self.
Proof.
  intros Hhs.
  assert (header_lines self ≤ length (readlines (file self)))%nat as Hle.
  { apply header_Some_bound. by eexists. }
  unfold header in Hhs. rewrite mapM_lookup_seq in Hhs by done.
  rewrite drop_0 in Hhs. injection Hhs as <-. split; [done|].
  rewrite <- join_drop_readlines, <- join_app, take_drop.
  apply join_readlines.
Qed.

Lemma header_then_rest_witness :
  ["Device file
"; "Nb header lines : 3
"] = take (header_lines instrument) (readlines (file instrument))
  ∧ join ["Device file
"; "Nb header lines : 3
"] +:+ after_lines (header_lines instrument) (file instrument)
    = file instrument.
Proof.
  apply (header_then_rest instrument). reflexivity.
Defined.

(** X15. The lines of the data block are the lines of the file without the
    header lines and the line of the column names: reading the joined lines
    again gives those very lines. *)
Theorem data_lines (self : CSVpackager) :
  readlines (data self)
  = drop (header_lines self + 1) (readlines (file self)).
Proof.
  rewrite data_after_lines, readlines_after_lines. f_equal. lia.
Qed.

(** X16. Nothing of the file is lost or changed by the cut: the skipped
    lines followed by the data block are the file. *)
Theorem skipped_lines_then_data (self : CSVpackager) :
  join (take (header_lines self + 1) (readlines (file self))) +:+ data self
  = file self.
Proof.
  unfold data. rewrite <- join_app, take_drop. apply join_readlines.
Qed.

(** X17. A file without a line after the column names has an empty data
    block, and the detector is asked about the empty text. *)
Theorem delimiter_without_data `{Externals} (self : CSVpackager) :
  (length (readlines (file self)) ≤ header_lines self + 1)%nat →
  data self = "" ∧ delimiter self = sniff_delimiter "".
Proof.
  intros Hle.
  assert (data self = "") as Hdata.
  { unfold data. by rewrite drop_ge. }
  split; [done|]. unfold delimiter. by rewrite Hdata.
Qed.

Lemma delimiter_without_data_witness :
  data (init "a,b
" None None) = ""
  ∧ @delimiter demo (init "a,b
" None None) = @sniff_delimiter demo "".
Proof.
  apply (delimiter_without_data (H := demo) (init "a,b
" None None)).
  vm_compute. lia.
Defined.
